(** * release_new_version.py: changelog construction and version validation

    A shallow embedding of the changelog builder of [release_new_version.py]
    ([build_changelog] and the git helpers it calls) and of
    [validate_version], with the theorems that relate them to the written
    specification of the repository.

    Python values are modelled as follows.
    - [str] is a list of Unicode code points ([N]); the primitives
      [str.strip], [str.splitlines] and [str.join] follow CPython.
    - [re.compile(r"^v\d+\.\d+\.\d+$")] is a small regular-expression
      syntax tree, matched the way [Pattern.match] does.
    - [subprocess.run] is a field of the outside world; every call made
      through [run] is appended to a log, and the clock read by
      [datetime.utcnow] is a sequence of readings consumed in order.
    - exceptions are the [Raise] branch of [result].

    The interactive helpers [ask] and [ask_yes_no], [git_repo_name] and
    [edit_message_with_nano] are embedded as well: the terminal is a list
    of lines to be typed and a list of texts written, the editor a
    function from the text of the file to what the file holds when the
    editor exits; [str.lower] and [Path.name] are parameters. *)

From Stdlib Require Import String Ascii.
From Stdlib Require Import List NArith ZArith Bool Lia.
Import ListNotations.

(* ------------------------------------------------------------------ *)
(** * Python strings *)
(* ------------------------------------------------------------------ *)

Module Py.

Open Scope N_scope.

(** A character is a Unicode code point, a [str] a sequence of them. *)
Definition char := N.
Definition str := list char.

(** An ASCII literal of the source, as a [str]. *)
Definition lit (s : string) : str :=
  map N_of_ascii (list_ascii_of_string s).

Definition LF : char := 10.
Definition CR : char := 13.

Definition str_eq_dec : forall a b : str, {a = b} + {a <> b} :=
  list_eq_dec N.eq_dec.

Definition between (lo hi c : char) : bool := (lo <=? c) && (c <=? hi).

(** [str.isspace] on one character ([Py_UNICODE_ISSPACE]): the characters
    of bidirectional type WS, B or S, and those of category Zs. *)
Definition isspace (c : char) : bool :=
  between 0x09 0x0D c || between 0x1C 0x20 c
  || (c =? 0x85) || (c =? 0xA0) || (c =? 0x1680)
  || between 0x2000 0x200A c
  || (c =? 0x2028) || (c =? 0x2029) || (c =? 0x202F)
  || (c =? 0x205F) || (c =? 0x3000).

(** The line boundaries of [str.splitlines] ([Py_UNICODE_ISLINEBREAK]). *)
Definition islinebreak (c : char) : bool :=
  between 0x0A 0x0D c || between 0x1C 0x1E c
  || (c =? 0x85) || (c =? 0x2028) || (c =? 0x2029).

(** First code points of the ten-character blocks of category Nd. *)
Definition Nd_blocks : list char :=
  [ 0x0030; 0x0660; 0x06F0; 0x07C0; 0x0966; 0x09E6; 0x0A66; 0x0AE6;
    0x0B66; 0x0BE6; 0x0C66; 0x0CE6; 0x0D66; 0x0DE6; 0x0E50; 0x0ED0;
    0x0F20; 0x1040; 0x1090; 0x17E0; 0x1810; 0x1946; 0x19D0; 0x1A80;
    0x1A90; 0x1B50; 0x1BB0; 0x1C40; 0x1C50; 0xA620; 0xA8D0; 0xA900;
    0xA9D0; 0xA9F0; 0xAA50; 0xABF0; 0xFF10; 0x104A0; 0x10D30; 0x11066;
    0x110F0; 0x11136; 0x111D0; 0x112F0; 0x11450; 0x114D0; 0x11650;
    0x116C0; 0x11730; 0x118E0; 0x11950; 0x11C50; 0x11D50; 0x11DA0;
    0x11F50; 0x16A60; 0x16AC0; 0x16B50; 0x1E140; 0x1E2F0; 0x1E4F0;
    0x1E950; 0x1FBF0 ].

(** [Py_UNICODE_ISDECIMAL]: the characters of category Nd, which is what
    [\d] matches in a [str] pattern compiled without [re.ASCII].  The
    table is the one of the Unicode database shipped with the
    interpreter: the blocks above and the mathematical digits. *)
Definition isdecimal (c : char) : bool :=
  existsb (fun b => between b (b + 9) c) Nd_blocks
  || between 0x1D7CE 0x1D7FF c.

(** [str.lstrip()], [str.rstrip()] and [str.strip()] without argument. *)
Fixpoint lstrip (s : str) : str :=
  match s with
  | c :: s' => if isspace c then lstrip s' else s
  | [] => []
  end.

Definition rstrip (s : str) : str := rev (lstrip (rev s)).

Definition strip (s : str) : str := rstrip (lstrip s).

(** [str.splitlines()]: [cur] is the line being read (reversed).  A line
    ends at a line boundary, [\r\n] counts as one boundary, and no empty
    line is produced after the last boundary. *)
Fixpoint splitlines_from (cur : str) (s : str) : list str :=
  match s with
  | [] => match cur with [] => [] | _ => [rev cur] end
  | c :: s' =>
      if islinebreak c then
        match s' with
        | c' :: s'' =>
            if (c =? CR) && (c' =? LF)
            then rev cur :: splitlines_from [] s''
            else rev cur :: splitlines_from [] s'
        | [] => rev cur :: splitlines_from [] s'
        end
      else splitlines_from (c :: cur) s'
  end.

Definition splitlines (s : str) : list str := splitlines_from [] s.

(** [sep.join(l)]. *)
Fixpoint join (sep : str) (l : list str) : str :=
  match l with
  | [] => []
  | [x] => x
  | x :: rest => x ++ sep ++ join sep rest
  end.

(** Truth value of a [str]: the empty string is false. *)
Definition truthy (s : str) : bool :=
  match s with [] => false | _ => true end.

End Py.

Import Py.
Open Scope N_scope.

(* ------------------------------------------------------------------ *)
(** * Regular expressions, as far as the script uses them *)
(* ------------------------------------------------------------------ *)

Module Re.

(** What one position of the pattern accepts. *)
Inductive atom :=
| Literal (c : char)          (* an ordinary or escaped character *)
| CategoryDigit.              (* [\d] *)

Inductive node :=
| AtBeginning                 (* [^] *)
| AtEnd                       (* [$], without [re.MULTILINE] *)
| One (a : atom)
| Plus (a : atom).            (* [a+], greedy *)

Definition pattern := list node.

Definition atom_matches (a : atom) (c : char) : bool :=
  match a with
  | Literal c' => c =? c'
  | CategoryDigit => isdecimal c
  end.

(** [$] holds at the end of the string and just before a newline that is
    the last character of the string. *)
Definition at_end (s : str) : bool :=
  match s with
  | [] => true
  | [c] => c =? LF
  | _ => false
  end.

(** [matches_here p start s]: the pattern [p] matches a prefix of the
    remaining input [s]; [start] says whether [s] is the whole subject.
    Repetition is greedy with backtracking. *)
Fixpoint matches_here (p : pattern) (start : bool) (s : str) : bool :=
  match p with
  | [] => true
  | AtBeginning :: p' => start && matches_here p' start s
  | AtEnd :: p' => at_end s && matches_here p' start s
  | One a :: p' =>
      match s with
      | c :: s' => atom_matches a c && matches_here p' false s'
      | [] => false
      end
  | Plus a :: p' =>
      (fix more (s : str) : bool :=
         match s with
         | c :: s' =>
             atom_matches a c && (more s' || matches_here p' false s')
         | [] => false
         end) s
  end.

(** [Pattern.match(s)], as a truth value: a match starting at index 0. *)
Definition re_match (p : pattern) (s : str) : bool := matches_here p true s.

End Re.

Import Re.


(* ------------------------------------------------------------------ *)
(** * Exceptions, the outside world and the effects of the script *)
(* ------------------------------------------------------------------ *)

Definition command := list str.

Inductive exn :=
| CalledProcessError (cmd : command) (status : Z)
| SystemExit (msg : str).

Inductive result (A : Type) :=
| Ok (a : A)
| Raise (e : exn).

Arguments Ok {A} a.
Arguments Raise {A} e.

(** What [subprocess.run(..., text=True, capture_output=True)] returns. *)
Record CompletedProcess := {
  returncode : Z;
  stdout : str;
  stderr : str
}.

(** A [datetime.datetime]; the type keeps [1 <= year <= 9999],
    [1 <= month <= 12] and [1 <= day <= 31]. *)
Record datetime := {
  year : N;
  month : N;
  day : N;
  hour : N;
  minute : N;
  second : N
}.

(** The collaborators: the programs started by [subprocess.run] (git)
    and the system clock, whose successive readings are numbered. *)
Record World := {
  subprocess_run : command -> CompletedProcess;
  utc_clock : nat -> datetime
}.

(** What a run of the script has done so far: the commands it started,
    oldest first, and how many times it read the clock. *)
Record State := {
  calls : list command;
  clock_reads : nat
}.

Definition M (A : Type) : Type := State -> result (A * State).

Definition ret {A} (a : A) : M A := fun st => Ok (a, st).

Definition bind {A B} (m : M A) (k : A -> M B) : M B :=
  fun st =>
    match m st with
    | Ok (a, st') => k a st'
    | Raise e => Raise e
    end.

Declare Scope py_scope.
Delimit Scope py_scope with py.
Notation "x <- m ;; k" := (bind m (fun x => k))
  (at level 61, m at next level, right associativity) : py_scope.
Open Scope py_scope.

(** [datetime.strftime("%Y-%m-%d")]: the year on four digits, the month
    and the day on two, zero-padded.  Each digit is taken modulo 10, which
    is the decimal writing for the years, months and days a [datetime]
    can hold. *)
Definition digit (d : N) : char := 48 + d mod 10.

Definition strftime_Ymd (t : datetime) : str :=
  [ digit (year t / 1000); digit (year t / 100); digit (year t / 10);
    digit (year t); 45;
    digit (month t / 10); digit (month t); 45;
    digit (day t / 10); digit (day t) ].

(** The em dash of the section header, U+2014. *)
Definition EM_DASH : char := 0x2014.

(* ------------------------------------------------------------------ *)
(** * Version/tag helpers *)
(* ------------------------------------------------------------------ *)

(** [re.compile(r"^v\d+\.\d+\.\d+$")]. *)
Definition SEMVER_TAG_RE : pattern :=
  [ AtBeginning; One (Literal 118); Plus CategoryDigit;
    One (Literal 46); Plus CategoryDigit;
    One (Literal 46); Plus CategoryDigit; AtEnd ].

Definition validate_version (tag : str) : result unit :=
  if negb (re_match SEMVER_TAG_RE tag)
  then Raise (SystemExit (lit "ERROR: Version must match syntax v1.2.3"))
  else Ok tt.

(* ------------------------------------------------------------------ *)
(** * Git helpers and the CHANGELOG builder *)
(* ------------------------------------------------------------------ *)

Section Script.

Variable w : World.

(** [run(cmd, check=...)], with [cwd] left to its default. *)
Definition run (cmd : command) (check : bool) : M CompletedProcess :=
  fun st =>
    let cp := subprocess_run w cmd in
    if check && negb (returncode cp =? 0)%Z
    then Raise (CalledProcessError cmd (returncode cp))
    else Ok (cp, {| calls := calls st ++ [cmd];
                    clock_reads := clock_reads st |}).

(** [datetime.utcnow()]. *)
Definition utcnow : M datetime :=
  fun st =>
    Ok (utc_clock w (clock_reads st),
        {| calls := calls st; clock_reads := S (clock_reads st) |}).

(** [[ln.strip() for ln in text.splitlines() if ln.strip()]]. *)
Definition stripped_lines (text : str) : list str :=
  map strip (filter (fun ln => truthy (strip ln)) (splitlines text)).

Definition git_tag_list_sorted_desc : M (list str) :=
  cp <- run [lit "git"; lit "tag"; lit "--sort=-creatordate"] true ;;
  let tags := stripped_lines (stdout cp) in
  ret (filter (fun t => re_match SEMVER_TAG_RE t) tags).

Definition tag_date (tag : str) : M str :=
  cp <- run [lit "git"; lit "log"; lit "-1"; lit "--format=%ad";
             lit "--date=short"; tag] true ;;
  ret (strip (stdout cp)).

Definition commits_between (a_excl : option str) (b_incl : str)
  : M (list str) :=
  let rev :=
    match a_excl with
    | None => b_incl
    | Some a => a ++ lit ".." ++ b_incl
    end in
  let fmt := lit "%s" in
  cp <- run [lit "git"; lit "log"; lit "--no-merges";
             lit "--pretty=format:" ++ fmt; rev] true ;;
  let lines := stripped_lines (stdout cp) in
  ret lines.

(** [f"## {tag} — {date}"] and [f"- {m}"]. *)
Definition header_line (tag date : str) : str :=
  lit "## " ++ tag ++ [32; EM_DASH; 32] ++ date.

Definition bullet_line (m : str) : str := lit "- " ++ m.

(** [enumerate(l)]. *)
Definition enumerate {A} (l : list A) : list (nat * A) :=
  combine (seq 0 (length l)) l.

(** The body of [for idx, tag in enumerate(tags)], run over the items
    that are still to come; [sections] is the list built so far. *)
Fixpoint for_each_tag (tags : list str) (items : list (nat * str))
    (sections : list str) : M (list str) :=
  match items with
  | [] => ret sections
  | (idx, tag) :: items' =>
      let prev_tag :=
        if (idx + 1 <? length tags)%nat
        then nth_error tags (idx + 1) else None in
      messages <- commits_between prev_tag tag ;;
      d <- tag_date tag ;;
      date <- (if truthy d then ret d
               else now <- utcnow ;; ret (strftime_Ymd now)) ;;
      let sec :=
        fold_left (fun sec m => sec ++ [bullet_line m]) messages
                  [header_line tag date] in
      for_each_tag tags items' (sections ++ [join [LF] sec])
  end.

Definition build_changelog : M str :=
  tags <- git_tag_list_sorted_desc ;;
  if negb (match tags with [] => false | _ => true end)
  then ret (lit "No tags found." ++ [LF])
  else
    sections <- for_each_tag tags (enumerate tags) [] ;;
    ret (join [LF; LF] sections ++ [LF]).

End Script.

(** The state of a run that has done nothing yet. *)
Definition st0 : State := {| calls := []; clock_reads := 0 |}.

(* ------------------------------------------------------------------ *)
(** * The collaborator's answers, read off the world *)
(* ------------------------------------------------------------------ *)

(** The three questions the builder asks git, and the answer of a world
    to each, as the helpers decode it from the standard output. *)
Section Responses.

Variable w : World.

Definition cmd_tag_list : command :=
  [lit "git"; lit "tag"; lit "--sort=-creatordate"].

Definition cmd_tag_date (tag : str) : command :=
  [lit "git"; lit "log"; lit "-1"; lit "--format=%ad";
   lit "--date=short"; tag].

(** The revision range [a..b] (commits of [b] that are not in [a]), or
    [b] alone for the whole history of [b]. *)
Definition rev_range (a_excl : option str) (b_incl : str) : str :=
  match a_excl with
  | None => b_incl
  | Some a => a ++ lit ".." ++ b_incl
  end.

Definition cmd_log (a_excl : option str) (b_incl : str) : command :=
  [lit "git"; lit "log"; lit "--no-merges"; lit "--pretty=format:%s";
   rev_range a_excl b_incl].

Definition succeeds (cmd : command) : Prop :=
  returncode (subprocess_run w cmd) = 0%Z.

Definition list_tags : list str :=
  filter (fun t => re_match SEMVER_TAG_RE t)
         (stripped_lines (stdout (subprocess_run w cmd_tag_list))).

(** The empty string stands for an absent date. *)
Definition tag_creation_date (tag : str) : str :=
  strip (stdout (subprocess_run w (cmd_tag_date tag))).

Definition commit_messages_between (a_excl : option str) (b_incl : str)
  : list str :=
  stripped_lines (stdout (subprocess_run w (cmd_log a_excl b_incl))).

(** The first command of a sequence that exits with a non-zero status,
    as the exception [run] raises for it. *)
Fixpoint first_failure (cmds : list command) : option exn :=
  match cmds with
  | [] => None
  | c :: cs =>
      if (returncode (subprocess_run w c) =? 0)%Z
      then first_failure cs
      else Some (CalledProcessError c (returncode (subprocess_run w c)))
  end.

End Responses.

(* ------------------------------------------------------------------ *)
(** * The changelog as a document *)
(* ------------------------------------------------------------------ *)

(** One section of the changelog: what the loop body puts into [sec]. *)
Record section := {
  sec_tag : str;
  sec_date : str;
  sec_messages : list str
}.

Definition render_section (s : section) : str :=
  join [LF] (header_line (sec_tag s) (sec_date s)
             :: map bullet_line (sec_messages s)).

Definition render (secs : list section) : str :=
  join [LF; LF] (map render_section secs) ++ [LF].

Section Expected.

Variable w : World.

(** The sections for the tags [tags], newest first, when the clock has
    been read [k] times: the previous tag of a tag is the next one of
    the list. *)
Fixpoint sections_from (tags : list str) (k : nat) : list section :=
  match tags with
  | [] => []
  | tag :: older =>
      let d := tag_creation_date w tag in
      {| sec_tag := tag;
         sec_date := if truthy d then d else strftime_Ymd (utc_clock w k);
         sec_messages := commit_messages_between w (hd_error older) tag |}
      :: sections_from older (if truthy d then k else S k)
  end.

(** The git commands these sections take, in the order they are run. *)
Fixpoint commands_for (tags : list str) : list command :=
  match tags with
  | [] => []
  | tag :: older =>
      cmd_log (hd_error older) tag :: cmd_tag_date tag :: commands_for older
  end.

(** How many of the tags have no date, hence take a clock reading. *)
Fixpoint absent_dates (tags : list str) : nat :=
  match tags with
  | [] => 0
  | tag :: older =>
      (if truthy (tag_creation_date w tag) then 0 else 1)
      + absent_dates older
  end%nat.

(** Every command of one run of [build_changelog], in order. *)
Definition issued : list command :=
  cmd_tag_list :: commands_for (list_tags w).

End Expected.

(** The text of a result, without the final state. *)
Definition output {A} (r : result (A * State)) : result A :=
  match r with
  | Ok (a, _) => Ok a
  | Raise e => Raise e
  end.

(* ------------------------------------------------------------------ *)
(** * Vocabulary of the properties *)
(* ------------------------------------------------------------------ *)

(** A string kept by the helpers: not empty, no whitespace at either end. *)
Definition trimmed (m : str) : Prop :=
  m <> [] /\ strip m = m /\
  isspace (hd 0 m) = false /\ isspace (last m 0) = false.

(** A non-empty run of decimal digits. *)
Definition digits (d : str) : Prop := d <> [] /\ forallb isdecimal d = true.

(** The strings [v<digits>.<digits>.<digits>]. *)
Definition semver_shape (s : str) : Prop :=
  exists major minor patch,
    digits major /\ digits minor /\ digits patch /\
    s = lit "v" ++ major ++ lit "." ++ minor ++ lit "." ++ patch.

(** The two git queries made for the tag at position [i] of [tags]: the
    messages since the tag at position [i + 1], then the tag's date. *)
Definition queries_at (tags : list str) (i : nat)
  : list command :=
  match nth_error tags i with
  | Some tag => [cmd_log (nth_error tags (S i)) tag; cmd_tag_date tag]
  | None => []
  end.

(** Every query made for [tags] exits with status 0. *)
Definition queries_succeed (w : World) (tags : list str) : Prop :=
  forall i cmd, In cmd (queries_at tags i) -> succeeds w cmd.

(** A text without line boundary: [splitlines] would keep it whole. *)
Definition single_line (m : str) : Prop :=
  Forall (fun c => islinebreak c = false) m.

(** What every expected section is made of. *)
Definition well_formed_section (s : section) : Prop :=
  trimmed (sec_tag s) /\ semver_shape (sec_tag s) /\
  trimmed (sec_date s) /\
  Forall trimmed (sec_messages s) /\
  Forall single_line (sec_messages s).

(** A text that is not empty and does not end in whitespace. *)
Definition ends_clean (x : str) : Prop :=
  x <> [] /\ isspace (last x 0) = false.

(** The date a section shows: the date git reports for the tag or, when
    git reports none, the date of clock reading number [k]. *)
Definition resolved_date (w : World) (k : nat) (tag : str) : str :=
  let d := tag_creation_date w tag in
  if truthy d then d else strftime_Ymd (utc_clock w k).

(** [YYYY-MM-DD]: four, two and two ASCII digits, separated by hyphens. *)
Definition is_Ymd (d : str) : bool :=
  match d with
  | [y1; y2; y3; y4; h1; m1; m2; h2; d1; d2] =>
      forallb (between 48 57) [y1; y2; y3; y4; m1; m2; d1; d2]
      && (h1 =? 45) && (h2 =? 45)
  | _ => false
  end.



(* ------------------------------------------------------------------ *)
(** * Example repositories *)
(* ------------------------------------------------------------------ *)

(** A process that exited with status 0 after printing [out]. *)
Definition completed (out : str) : CompletedProcess :=
  {| returncode := 0; stdout := out; stderr := [] |}.

Definition command_eqb (a b : command) : bool :=
  if list_eq_dec str_eq_dec a b then true else false.

Definition at_midnight (y m d : N) : datetime :=
  {| year := y; month := m; day := d; hour := 0; minute := 0; second := 0 |}.

Definition v1 : str := lit "v1.0.0".
Definition v2 : str := lit "v2.0.0".

(** A repository with the releases [v1.0.0] and [v2.0.0] and a tag
    [nightly]; [date_v2] is what git prints for the date of [v2.0.0]. *)
Definition demo_git (date_v2 : str) (cmd : command) : str :=
  if command_eqb cmd cmd_tag_list
  then lit "v2.0.0" ++ [LF] ++ lit "nightly" ++ [LF] ++ lit "v1.0.0" ++ [LF]
  else if command_eqb cmd (cmd_log None v1)
  then lit "init" ++ [LF]
  else if command_eqb cmd (cmd_log (Some v1) v2)
  then lit "feature A" ++ [LF] ++ lit "   " ++ [LF] ++ lit "  fix B " ++ [LF]
  else if command_eqb cmd (cmd_tag_date v1)
  then lit "2024-01-01" ++ [LF]
  else if command_eqb cmd (cmd_tag_date v2)
  then date_v2
  else [].

Definition demo_world (date_v2 : str) (today : datetime) : World :=
  {| subprocess_run := fun cmd => completed (demo_git date_v2 cmd);
     utc_clock := fun _ => today |}.

(** The same repository, with a date for [v2.0.0]. *)
Definition dated_world : World :=
  demo_world (lit "2024-02-02" ++ [LF]) (at_midnight 2026 11 3).

(** A repository whose only tag is not a version. *)
Definition untagged_world : World :=
  {| subprocess_run := fun cmd =>
       completed (if command_eqb cmd cmd_tag_list
                  then lit "nightly" ++ [LF] else []);
     utc_clock := fun _ => at_midnight 2026 11 3 |}.


(** The state of a fresh run once it has listed the tags. *)
Definition after_tag_list : State :=
  {| calls := [cmd_tag_list]; clock_reads := 0 |}.

(* ------------------------------------------------------------------ *)
(** * Further Python primitives *)
(* ------------------------------------------------------------------ *)

(** [s.split(sep)] for a separator of one character; [cur] is the piece
    being read (reversed).  The result is never empty. *)
Fixpoint split_from (sep : char) (cur : str) (s : str) : list str :=
  match s with
  | [] => [rev cur]
  | c :: s' =>
      if c =? sep then rev cur :: split_from sep [] s'
      else split_from sep (c :: cur) s'
  end.

Definition split (sep : char) (s : str) : list str := split_from sep [] s.

(** [s.startswith(prefix)] and [s.endswith(suffix)]. *)
Fixpoint startswith (s prefix : str) : bool :=
  match prefix, s with
  | [], _ => true
  | p :: prefix', c :: s' => (c =? p) && startswith s' prefix'
  | _ :: _, [] => false
  end.

Definition endswith (s suffix : str) : bool :=
  startswith (rev s) (rev suffix).

(** [s[:-n]] for a positive [n]: all but the last [n] characters, nothing
    when there are no more than [n]. *)
Definition drop_last (n : nat) (s : str) : str := firstn (length s - n) s.

(** [str(i)] for an integer: its decimal writing. *)
Fixpoint uint_str (u : Decimal.uint) : str :=
  match u with
  | Decimal.Nil => []
  | Decimal.D0 u' => 48 :: uint_str u'
  | Decimal.D1 u' => 49 :: uint_str u'
  | Decimal.D2 u' => 50 :: uint_str u'
  | Decimal.D3 u' => 51 :: uint_str u'
  | Decimal.D4 u' => 52 :: uint_str u'
  | Decimal.D5 u' => 53 :: uint_str u'
  | Decimal.D6 u' => 54 :: uint_str u'
  | Decimal.D7 u' => 55 :: uint_str u'
  | Decimal.D8 u' => 56 :: uint_str u'
  | Decimal.D9 u' => 57 :: uint_str u'
  end.

Definition str_of_int (z : Z) : str :=
  match Z.to_int z with
  | Decimal.Pos u => uint_str u
  | Decimal.Neg u => 45 :: uint_str u
  end.

(* ------------------------------------------------------------------ *)
(** * The terminal: [ask] and [ask_yes_no] *)
(* ------------------------------------------------------------------ *)

(** The terminal of an interactive run: the lines that will be typed,
    each without its newline, and the pieces of text written so far,
    oldest first.  The lines to come are a finite list; after the last
    one the input is at its end. *)
Record Console := {
  keyboard : list str;
  screen : list str
}.

(** What a function that reads the terminal does: it returns, or
    [input] raises [EOFError] at the end of the input. *)
Inductive answer (A : Type) :=
| Returned (a : A) (c : Console)
| EOFError (c : Console).

Arguments Returned {A} a c.
Arguments EOFError {A} c.

(** [print(text)]. *)
Definition print (text : str) (c : Console) : Console :=
  {| keyboard := keyboard c; screen := screen c ++ [text ++ [LF]] |}.

(** The loop of [ask], on the lines [keys] still to be typed: each turn
    is one [input(text)], which writes [text] and reads a line. *)
Fixpoint ask_loop (text : str) (default : option str) (keys : list str)
    (shown : list str) : answer str :=
  match keys with
  | [] => EOFError {| keyboard := []; screen := shown ++ [text] |}
  | line :: keys' =>
      let val := strip line in
      let c := {| keyboard := keys'; screen := shown ++ [text] |} in
      match (if negb (truthy val) then default else None) with
      | Some d => Returned d c
      | None =>
          if truthy val then Returned val c
          else ask_loop text default keys' (shown ++ [text])
      end
  end.

(** [ask(prompt, default)]; [None] is the default of [default]. *)
Definition ask (prompt : str) (default : option str) (c : Console)
  : answer str :=
  let sfx :=
    match default with
    | Some d => if truthy d then lit " [" ++ d ++ lit "]" else []
    | None => []
    end in
  ask_loop (prompt ++ sfx ++ lit ": ") default (keyboard c) (screen c).

Section YesNo.

(** [str.lower()], whose case mapping is a table of the interpreter's
    Unicode database. *)
Variable lower : str -> str.

Definition answer_in (v : str) (choices : list str) : bool :=
  existsb (fun x => if str_eq_dec v x then true else false) choices.

(** The loop of [ask_yes_no]. *)
Fixpoint ask_yes_no_loop (text : str) (default_yes : bool)
    (keys : list str) (shown : list str) : answer bool :=
  match keys with
  | [] => EOFError {| keyboard := []; screen := shown ++ [text] |}
  | line :: keys' =>
      let v := lower (strip line) in
      let c := {| keyboard := keys'; screen := shown ++ [text] |} in
      if negb (truthy v) then Returned default_yes c
      else if answer_in v [lit "y"; lit "yes"] then Returned true c
      else if answer_in v [lit "n"; lit "no"] then Returned false c
      else ask_yes_no_loop text default_yes keys'
             (screen (print (lit "Please answer y or n.") c))
  end.

Definition ask_yes_no (prompt : str) (default_yes : bool) (c : Console)
  : answer bool :=
  let d := if default_yes then lit "Y/n" else lit "y/N" in
  ask_yes_no_loop (prompt ++ lit " (" ++ d ++ lit "): ") default_yes
    (keyboard c) (screen c).

End YesNo.

(* ------------------------------------------------------------------ *)
(** * The name of the repository *)
(* ------------------------------------------------------------------ *)

(** [try: body except subprocess.CalledProcessError: handler].  Each
    [try] block of the script starts one process, first thing; when that
    process fails, the handler runs in the state of the block's start
    with the failed command added to the commands started. *)
Definition try_except {A} (body : M A) (handler : command -> Z -> M A)
  : M A :=
  fun st =>
    match body st with
    | Raise (CalledProcessError cmd status) =>
        handler cmd status
          {| calls := calls st ++ [cmd]; clock_reads := clock_reads st |}
    | r => r
    end.

Section RepoName.

Variable w : World.

(** [Path(p).name]: the last component of a path, by the rules of the
    platform's flavour of [pathlib]. *)
Variable Path_name : str -> str.

(** [git_repo_root()]; the [Path] is kept as the text it is made from. *)
Definition git_repo_root : M str :=
  cp <- run w [lit "git"; lit "rev-parse"; lit "--show-toplevel"] true ;;
  ret (strip (stdout cp)).

Definition git_repo_name : M str :=
  found <-
    try_except
      (cp <- run w [lit "git"; lit "config"; lit "--get";
                    lit "remote.origin.url"] true ;;
       let url := strip (stdout cp) in
       if truthy url then
         let name := last (split 47 url) [] in
         let name :=
           if endswith name (lit ".git") then drop_last 4 name else name in
         if truthy name then ret (Some name) else ret None
       else ret None)
      (fun _ _ => ret None) ;;
  match found with
  | Some name => ret name
  | None => root <- git_repo_root ;; ret (Path_name root)
  end.

End RepoName.

(* ------------------------------------------------------------------ *)
(** * The release message *)
(* ------------------------------------------------------------------ *)

(** What happens when [nano.exe] is started on the temporary file:
    the program is not found, or it exits with a status and leaves the
    file with a content, given here as [read_text] decodes it. *)
Inductive editor_outcome :=
| ProgramNotFound
| Exited (status : Z) (content : str).

(** The editor and its user, from the text the file holds at first. *)
Definition Editor := str -> editor_outcome.

Definition edit_message_with_nano (nano : Editor) (default_text : str)
  : result str :=
  match nano default_text with
  | ProgramNotFound =>
      Raise (SystemExit (lit "ERROR: nano.exe not found. Ensure it is in PATH or next to this script."))
  | Exited status content =>
      if negb (status =? 0)%Z
      then Raise (SystemExit (lit "ERROR: nano.exe exited with status "
                              ++ str_of_int status))
      else
        let msg :=
          strip (join [LF]
                   (filter (fun line =>
                              negb (startswith (strip line) (lit "#")))
                           (splitlines content))) in
        if negb (truthy msg)
        then Raise (SystemExit (lit "Aborted: no message entered."))
        else Ok msg
  end.

(** The text [main] puts in the file before the editor opens. *)
Definition release_message_template : str :=
  lit "# Enter your release/commit message below." ++ [LF]
  ++ lit "# Lines starting with # are ignored." ++ [LF]
  ++ [LF].

(* ------------------------------------------------------------------ *)
(** * Further examples *)
(* ------------------------------------------------------------------ *)

(** A process that exited with a non-zero status and a message. *)
Definition failed (status : Z) (err : str) : CompletedProcess :=
  {| returncode := status; stdout := []; stderr := err |}.

(** The example repository, when asking for the date of [v1.0.0] fails. *)
Definition broken_date_world : World :=
  {| subprocess_run := fun cmd =>
       if command_eqb cmd (cmd_tag_date v1)
       then failed 128 (lit "fatal: bad object")
       else completed (demo_git (lit "2024-02-02" ++ [LF]) cmd);
     utc_clock := fun _ => at_midnight 2026 11 3 |}.

(** The example repository, without a date for [v2.0.0]. *)
Definition undated_world : World :=
  demo_world [] (at_midnight 2026 11 3).

(** Lower case for the letters [A] to [Z], as [str.lower] has it on
    ASCII text. *)
Definition ascii_lower (s : str) : str :=
  map (fun c => if between 65 90 c then c + 32 else c) s.

(** The reminder of [ask_yes_no], as [print] writes it. *)
Definition yes_no_reminder : str := lit "Please answer y or n." ++ [LF].

(** A line that [edit_message_with_nano] ignores: its first character
    that is not whitespace is [#]. *)
Definition comment_line (line : str) : bool :=
  startswith (strip line) (lit "#").

(** A user who types [typed] below the text the file held. *)
Definition typing (typed : str) : Editor :=
  fun text => Exited 0 (text ++ typed).

(** The two queries of [git_repo_name]. *)
Definition cmd_origin_url : command :=
  [lit "git"; lit "config"; lit "--get"; lit "remote.origin.url"].

Definition cmd_toplevel : command :=
  [lit "git"; lit "rev-parse"; lit "--show-toplevel"].

(** A working copy in [/home/me/work/machine]; [origin] is the answer to
    the query for the URL of the remote. *)
Definition origin_world (origin : CompletedProcess) : World :=
  {| subprocess_run := fun cmd =>
       if command_eqb cmd cmd_origin_url then origin
       else completed (lit "/home/me/work/machine" ++ [LF]);
     utc_clock := fun _ => at_midnight 2026 11 3 |}.

(** The piece after the last [/]: the name of a path written the POSIX
    way that does not end with [/]. *)
Definition last_piece (p : str) : str := last (split 47 p) [].

(* ------------------------------------------------------------------ *)
(** * The changelog, line by line *)
(* ------------------------------------------------------------------ *)

(** The lines of a section as the specification gives them: the header
    [## <tag> — <date>], then one line [- <message>] for each message,
    in order. *)
Definition section_lines (s : section) : list str :=
  (lit "## " ++ sec_tag s ++ lit " " ++ [EM_DASH] ++ lit " " ++ sec_date s)
  :: map (fun m => lit "- " ++ m) (sec_messages s).

(** The lines of a document: the lines of its sections, with one empty
    line between two sections. *)
Fixpoint document_lines (secs : list section) : list str :=
  match secs with
  | [] => []
  | [s] => section_lines s
  | s :: rest => section_lines s ++ [] :: document_lines rest
  end.

(** The text made of the lines [lines]: each line is followed by one
    newline. *)
Definition unlines (lines : list str) : str :=
  concat (map (fun line => line ++ [LF]) lines).

(** The section of the tag at position [i] of [tags], in a run that had
    read the clock [k] times when it started on the tags: its date is the
    date git reports or, when git reports none, the date of the clock
    reading made then (one reading was made for each earlier tag without
    date); its messages are those of the interval from the tag at
    position [i + 1], if any, to the tag. *)
Definition section_at (w : World) (tags : list str) (k i : nat) : section :=
  {| sec_tag := nth i tags [];
     sec_date :=
       resolved_date w (k + absent_dates w (firstn i tags)) (nth i tags []);
     sec_messages :=
       commit_messages_between w (nth_error tags (S i)) (nth i tags []) |}.

(** One section for each tag, in the order of the tags. *)
Definition expected_sections (w : World) (tags : list str) (k : nat)
  : list section :=
  map (section_at w tags k) (seq 0 (length tags)).

(** The dates a [datetime] can hold. *)
Definition valid_date (t : datetime) : Prop :=
  1 <= year t <= 9999 /\ 1 <= month t <= 12 /\ 1 <= day t <= 31.

(** The year, month and day that a text [YYYY-MM-DD] writes, read as
    decimal numbers. *)
Definition Ymd_value (d : str) : option (N * N * N) :=
  match d with
  | [y1; y2; y3; y4; h1; m1; m2; h2; d1; d2] =>
      if forallb (between 48 57) [y1; y2; y3; y4; m1; m2; d1; d2]
         && (h1 =? 45) && (h2 =? 45)
      then Some (1000 * (y1 - 48) + 100 * (y2 - 48) + 10 * (y3 - 48)
                 + (y4 - 48),
                 10 * (m1 - 48) + (m2 - 48),
                 10 * (d1 - 48) + (d2 - 48))
      else None
  | _ => None
  end.






(* ------------------------------------------------------------------ *)
(** * Lemmas on the loop *)
(* ------------------------------------------------------------------ *)

Lemma fold_left_append_bullets (messages : list str) (sec : list str) :
  fold_left (fun sec m => sec ++ [bullet_line m]) messages sec
  = sec ++ map bullet_line messages.
Proof.
  revert sec; induction messages as [|m ms IH]; intros sec; simpl.
  - now rewrite app_nil_r.
  - rewrite IH, <- app_assoc. reflexivity.
Qed.

Lemma prev_tag_is_next (pre : list str) (tag : str) (older : list str) :
  (if (length pre + 1 <? length (pre ++ tag :: older))%nat
   then nth_error (pre ++ tag :: older) (length pre + 1)
   else None) = hd_error older.
Proof.
  rewrite length_app; simpl.
  replace (length pre + 1)%nat with (length pre + 1 + 0)%nat at 2 by lia.
  replace (pre ++ tag :: older) with ((pre ++ [tag]) ++ older)
    by (rewrite <- app_assoc; reflexivity).
  replace (length pre + 1)%nat with (length (pre ++ [tag]))
    by (rewrite length_app; reflexivity).
  rewrite nth_error_app2 by lia.
  replace (length (pre ++ [tag]) + 0 - length (pre ++ [tag]))%nat
    with 0%nat by lia.
  destruct older as [|t older']; simpl.
  - destruct (Nat.ltb_spec (length (pre ++ [tag]))
                           (length pre + 1)); [|reflexivity].
    rewrite length_app in *; simpl in *; lia.
  - destruct (Nat.ltb_spec (length (pre ++ [tag]))
                           (length pre + S (S (length older'))));
      [reflexivity|].
    rewrite length_app in *; simpl in *; lia.
Qed.

Lemma run_checked (w : World) (cmd : command) (st : State) :
  run w cmd true st =
  if (returncode (subprocess_run w cmd) =? 0)%Z
  then Ok (subprocess_run w cmd,
           {| calls := calls st ++ [cmd]; clock_reads := clock_reads st |})
  else Raise (CalledProcessError cmd (returncode (subprocess_run w cmd))).
Proof.
  unfold run; simpl.
  destruct (returncode (subprocess_run w cmd) =? 0)%Z; reflexivity.
Qed.

(** The loop in closed form: it fails with the first failing command, and
    otherwise appends the expected sections, having run the expected
    commands and read the clock once per absent date. *)
Lemma for_each_tag_closed (w : World) (suf pre acc : list str) (st : State) :
  for_each_tag w (pre ++ suf)
    (combine (seq (length pre) (length suf)) suf) acc st
  = match first_failure w (commands_for suf) with
    | Some e => Raise e
    | None =>
        Ok (acc ++ map render_section (sections_from w suf (clock_reads st)),
            {| calls := calls st ++ commands_for suf;
               clock_reads := clock_reads st + absent_dates w suf |})
    end.
Proof.
  revert pre acc st; induction suf as [|tag older IH]; intros pre acc st.
  - simpl. unfold ret. rewrite !app_nil_r, Nat.add_0_r.
    destruct st; reflexivity.
  - cbn [length seq combine for_each_tag commands_for first_failure].
    rewrite prev_tag_is_next.
    unfold bind at 1. unfold commits_between at 1.
    unfold bind at 1. rewrite run_checked.
    change [lit "git"; lit "log"; lit "--no-merges";
            lit "--pretty=format:" ++ lit "%s";
            match hd_error older with
            | Some a => a ++ lit ".." ++ tag
            | None => tag
            end] with (cmd_log (hd_error older) tag).
    destruct (returncode (subprocess_run w (cmd_log (hd_error older) tag))
              =? 0)%Z; [|reflexivity].
    unfold ret at 1.
    unfold bind at 1. unfold tag_date at 1. unfold bind at 1.
    rewrite run_checked.
    change [lit "git"; lit "log"; lit "-1"; lit "--format=%ad";
            lit "--date=short"; tag] with (cmd_tag_date tag).
    destruct (returncode (subprocess_run w (cmd_tag_date tag)) =? 0)%Z;
      [|reflexivity].
    unfold ret at 1.
    change (strip (stdout (subprocess_run w (cmd_tag_date tag))))
      with (tag_creation_date w tag).
    cbn [sections_from absent_dates map].
    replace (pre ++ tag :: older) with ((pre ++ [tag]) ++ older)
      by (rewrite <- app_assoc; reflexivity).
    replace (S (length pre)) with (length (pre ++ [tag]))
      by (rewrite length_app; simpl; lia).
    unfold bind at 1.
    destruct (truthy (tag_creation_date w tag)) eqn:Hd.
    + unfold ret at 1. rewrite IH, fold_left_append_bullets.
      destruct (first_failure w (commands_for older)); [reflexivity|].
      cbn [calls clock_reads].
      unfold render_section; cbn [sec_tag sec_date sec_messages].
      rewrite <- !app_assoc. reflexivity.
    + unfold bind at 1. unfold utcnow at 1. unfold ret at 1.
      rewrite IH, fold_left_append_bullets.
      destruct (first_failure w (commands_for older)); [reflexivity|].
      cbn [calls clock_reads].
      unfold render_section; cbn [sec_tag sec_date sec_messages].
      rewrite <- !app_assoc.
      replace (S (clock_reads st) + absent_dates w older)%nat
        with (clock_reads st + (1 + absent_dates w older))%nat by lia.
      reflexivity.
Qed.

Lemma enumerate_from_zero (tags : list str) :
  enumerate tags = combine (seq (length (@nil str)) (length tags)) tags.
Proof. reflexivity. Qed.

(** [build_changelog] in closed form. *)
Lemma build_changelog_closed (w : World) (st : State) :
  build_changelog w st
  = match first_failure w (issued w) with
    | Some e => Raise e
    | None =>
        Ok (match list_tags w with
            | [] => lit "No tags found." ++ [LF]
            | _ => render (sections_from w (list_tags w) (clock_reads st))
            end,
            {| calls := calls st ++ issued w;
               clock_reads := clock_reads st + absent_dates w (list_tags w) |})
    end.
Proof.
  unfold build_changelog, issued.
  unfold bind at 1. unfold git_tag_list_sorted_desc. unfold bind at 1.
  rewrite run_checked. fold cmd_tag_list.
  cbn [first_failure].
  destruct (returncode (subprocess_run w cmd_tag_list) =? 0)%Z;
    [|reflexivity].
  unfold ret at 1. fold (list_tags w).
  destruct (list_tags w) as [|t ts] eqn:Htags.
  - cbn [negb commands_for first_failure absent_dates]. unfold ret.
    cbn [calls clock_reads]. rewrite Nat.add_0_r. reflexivity.
  - cbn [negb]. unfold bind at 1.
    rewrite enumerate_from_zero.
    change (t :: ts) with ([] ++ t :: ts) at 1.
    rewrite for_each_tag_closed.
    destruct (first_failure w (commands_for (t :: ts))); [reflexivity|].
    unfold ret, render. cbn [calls clock_reads app].
    rewrite <- app_assoc. reflexivity.
Qed.

Lemma first_failure_none (w : World) (cmds : list command) :
  Forall (succeeds w) cmds -> first_failure w cmds = None.
Proof.
  induction 1 as [|c cs Hc _ IH]; simpl; [reflexivity|].
  unfold succeeds in Hc. rewrite Hc. exact IH.
Qed.

Lemma first_failure_none_inv (w : World) (cmds : list command) :
  first_failure w cmds = None -> Forall (succeeds w) cmds.
Proof.
  induction cmds as [|c cs IH]; simpl; intros H; [constructor|].
  destruct (Z.eqb_spec (returncode (subprocess_run w c)) 0) as [E|E];
    [|discriminate].
  constructor; auto.
Qed.

(** When every command it issues succeeds, [build_changelog] returns the
    rendered sections (or the placeholder) and has run exactly the
    commands of [issued]. *)
Lemma build_changelog_ok (w : World) (st : State) :
  Forall (succeeds w) (issued w) ->
  build_changelog w st
  = Ok (match list_tags w with
        | [] => lit "No tags found." ++ [LF]
        | _ => render (sections_from w (list_tags w) (clock_reads st))
        end,
        {| calls := calls st ++ issued w;
           clock_reads := clock_reads st + absent_dates w (list_tags w) |}).
Proof.
  intros H. rewrite build_changelog_closed, (first_failure_none _ _ H).
  reflexivity.
Qed.

(** Positional reading of [sections_from]. *)
Lemma sections_from_length (w : World) (tags : list str) (k : nat) :
  length (sections_from w tags k) = length tags.
Proof.
  revert k; induction tags as [|t ts IH]; intros k; simpl; auto.
Qed.

Lemma sections_from_tags (w : World) (tags : list str) (k : nat) :
  map sec_tag (sections_from w tags k) = tags.
Proof.
  revert k; induction tags as [|t ts IH]; intros k; simpl; [|rewrite IH];
    reflexivity.
Qed.

Lemma hd_error_nth_error {A} (l : list A) : hd_error l = nth_error l 0.
Proof. destruct l; reflexivity. Qed.

Lemma sections_from_nth (w : World) (tags : list str) (k i : nat) (tag : str) :
  nth_error tags i = Some tag ->
  exists s,
    nth_error (sections_from w tags k) i = Some s /\
    sec_tag s = tag /\
    sec_messages s = commit_messages_between w (nth_error tags (S i)) tag /\
    sec_date s =
      (if truthy (tag_creation_date w tag) then tag_creation_date w tag
       else strftime_Ymd (utc_clock w (k + absent_dates w (firstn i tags)))).
Proof.
  revert k i; induction tags as [|t ts IH]; intros k i H.
  - destruct i; discriminate.
  - destruct i as [|i]; simpl in H.
    + injection H as ->. eexists; split; [reflexivity|].
      cbn [sec_tag sec_date sec_messages firstn absent_dates nth_error].
      rewrite hd_error_nth_error, Nat.add_0_r. auto.
    + destruct (IH (if truthy (tag_creation_date w t) then k else S k) i H)
        as (s & Hs & Htag & Hm & Hd).
      exists s. cbn [sections_from nth_error]. split; [exact Hs|].
      split; [exact Htag|]. split; [exact Hm|].
      rewrite Hd. cbn [firstn absent_dates].
      destruct (truthy (tag_creation_date w tag)); [reflexivity|].
      destruct (truthy (tag_creation_date w t)); f_equal; f_equal; lia.
Qed.

(* ------------------------------------------------------------------ *)
(** * Lemmas on strings *)
(* ------------------------------------------------------------------ *)

Lemma lstrip_head (s : str) (c : char) (r : str) :
  lstrip s = c :: r -> isspace c = false.
Proof.
  induction s as [|x s IH]; simpl; [discriminate|].
  destruct (isspace x) eqn:E; [exact IH|].
  intros H; injection H as <- _; exact E.
Qed.

Lemma lstrip_nonspace (c : char) (r : str) :
  isspace c = false -> lstrip (c :: r) = c :: r.
Proof. intros H; simpl; rewrite H; reflexivity. Qed.

Lemma lstrip_idem (s : str) : lstrip (lstrip s) = lstrip s.
Proof.
  destruct (lstrip s) as [|c r] eqn:E; [reflexivity|].
  apply lstrip_nonspace. exact (lstrip_head _ _ _ E).
Qed.

Lemma lstrip_before_nonspace (a : str) (c : char) (b : str) :
  isspace c = false -> lstrip (a ++ c :: b) = lstrip a ++ c :: b.
Proof.
  intros H; induction a as [|x a IH]; simpl.
  - rewrite H; reflexivity.
  - destruct (isspace x); [exact IH | reflexivity].
Qed.

Lemma lstrip_empty (s : str) :
  lstrip s = [] <-> forallb isspace s = true.
Proof.
  induction s as [|x s IH]; simpl; [tauto|].
  destruct (isspace x); simpl; [exact IH|].
  split; discriminate.
Qed.

Lemma rstrip_nil : rstrip [] = [].
Proof. reflexivity. Qed.

Lemma rstrip_cons_nonspace (c : char) (r : str) :
  isspace c = false -> rstrip (c :: r) = c :: rstrip r.
Proof.
  intros H; unfold rstrip; simpl.
  rewrite (lstrip_before_nonspace (rev r) c [] H), rev_app_distr.
  reflexivity.
Qed.

Lemma rstrip_idem (s : str) : rstrip (rstrip s) = rstrip s.
Proof. unfold rstrip. rewrite rev_involutive, lstrip_idem. reflexivity. Qed.

Lemma rstrip_last (s : str) (d : char) :
  rstrip s <> [] -> isspace (last (rstrip s) d) = false.
Proof.
  unfold rstrip. destruct (lstrip (rev s)) as [|c r] eqn:E.
  - intros H; now elim H.
  - intros _. simpl. rewrite last_last. exact (lstrip_head _ _ _ E).
Qed.

(** [strip] in two cases: nothing but whitespace, or a first character
    that is kept. *)
Lemma strip_cases (s : str) :
  (forallb isspace s = true /\ strip s = []) \/
  (exists c r, lstrip s = c :: r /\ isspace c = false
               /\ strip s = c :: rstrip r).
Proof.
  unfold strip. destruct (lstrip s) as [|c r] eqn:E.
  - left. split; [now apply lstrip_empty | reflexivity].
  - right. exists c, r. pose proof (lstrip_head _ _ _ E) as Hc.
    repeat split; auto. now apply rstrip_cons_nonspace.
Qed.

Lemma strip_empty (s : str) :
  strip s = [] <-> forallb isspace s = true.
Proof.
  destruct (strip_cases s) as [[H1 H2] | (c & r & H1 & H2 & H3)].
  - tauto.
  - rewrite H3. split; [discriminate|].
    intros H. apply lstrip_empty in H. congruence.
Qed.

Lemma strip_idem (s : str) : strip (strip s) = strip s.
Proof.
  destruct (strip_cases s) as [[_ H] | (c & r & _ & Hc & H)]; rewrite H.
  - reflexivity.
  - unfold strip. rewrite (lstrip_nonspace _ _ Hc).
    rewrite (rstrip_cons_nonspace _ _ Hc), rstrip_idem. reflexivity.
Qed.

Lemma strip_head (s : str) (c : char) (r : str) :
  strip s = c :: r -> isspace c = false.
Proof.
  destruct (strip_cases s) as [[_ H] | (c' & r' & _ & Hc & H)]; rewrite H.
  - discriminate.
  - intros E; injection E as <- _; exact Hc.
Qed.

Lemma strip_last (s : str) (d : char) :
  strip s <> [] -> isspace (last (strip s) d) = false.
Proof. unfold strip. apply rstrip_last. Qed.

Lemma strip_trimmed (s : str) : truthy (strip s) = true -> trimmed (strip s).
Proof.
  intros H. assert (Hne : strip s <> []).
  { destruct (strip s); [discriminate | congruence]. }
  split; [exact Hne|]. split; [apply strip_idem|]. split.
  - destruct (strip s) as [|c r] eqn:E; [congruence|].
    simpl. exact (strip_head _ _ _ E).
  - now apply strip_last.
Qed.

Lemma stripped_lines_spec (text m : str) :
  In m (stripped_lines text) <->
  exists ln, In ln (splitlines text) /\ forallb isspace ln = false
             /\ m = strip ln.
Proof.
  unfold stripped_lines. rewrite in_map_iff. split.
  - intros (ln & <- & Hin). apply filter_In in Hin as [Hin Ht].
    exists ln. repeat split; auto.
    destruct (forallb isspace ln) eqn:E; [|reflexivity].
    apply strip_empty in E. rewrite E in Ht. discriminate.
  - intros (ln & Hin & Hsp & ->). exists ln. split; [reflexivity|].
    apply filter_In. split; [exact Hin|].
    destruct (strip ln) eqn:E; [|reflexivity].
    apply strip_empty in E. congruence.
Qed.

Lemma stripped_lines_trimmed (text : str) :
  Forall trimmed (stripped_lines text).
Proof.
  unfold stripped_lines. apply Forall_forall. intros m Hm.
  apply in_map_iff in Hm as (ln & <- & Hin).
  apply filter_In in Hin as [_ Ht]. now apply strip_trimmed.
Qed.

Lemma stripped_lines_all_blank (text : str) :
  Forall (fun ln => forallb isspace ln = true) (splitlines text) ->
  stripped_lines text = [].
Proof.
  unfold stripped_lines. induction (splitlines text) as [|ln lns IH];
    intros H; [reflexivity|].
  inversion H as [|? ? Hln Hrest]; subst. simpl.
  apply strip_empty in Hln. rewrite Hln. simpl. auto.
Qed.

(* ------------------------------------------------------------------ *)
(** * What the tag pattern accepts *)
(* ------------------------------------------------------------------ *)

Lemma matches_plus (a : atom) (p : pattern) (start : bool) (s : str) :
  matches_here (Plus a :: p) start s = true <->
  exists d rest,
    s = d ++ rest /\ d <> [] /\ forallb (atom_matches a) d = true /\
    matches_here p false rest = true.
Proof.
  induction s as [|c s IH].
  - split; [discriminate|].
    intros (d & rest & E & Hd & _). destruct d; [congruence|discriminate].
  - change (matches_here (Plus a :: p) start (c :: s))
      with (atom_matches a c
            && (matches_here (Plus a :: p) start s
                || matches_here p false s)).
    rewrite andb_true_iff, orb_true_iff, IH. split.
    + intros [Hc [(d & rest & -> & Hd & Hall & Hrest) | Hrest]].
      * exists (c :: d), rest. simpl. rewrite Hc, Hall.
        repeat split; auto; discriminate.
      * exists [c], s. simpl. rewrite Hc.
        repeat split; auto; discriminate.
    + intros (d & rest & E & Hd & Hall & Hrest).
      destruct d as [|x d]; [congruence|].
      simpl in E, Hall. injection E as <- ->.
      apply andb_true_iff in Hall as [Hx Hall]. split; [exact Hx|].
      destruct d as [|y d]; [right; exact Hrest|].
      left. exists (y :: d), rest. repeat split; auto; discriminate.
Qed.

Lemma matches_one (a : atom) (p : pattern) (start : bool) (s : str) :
  matches_here (One a :: p) start s = true <->
  exists c rest,
    s = c :: rest /\ atom_matches a c = true /\
    matches_here p false rest = true.
Proof.
  destruct s as [|c s]; simpl.
  - split; [discriminate | intros (? & ? & ? & _); discriminate].
  - rewrite andb_true_iff. split.
    + intros [? ?]. exists c, s. auto.
    + intros (c' & rest & E & ? & ?). injection E as <- <-. auto.
Qed.

Lemma matches_at_end (s : str) :
  matches_here [AtEnd] false s = true <-> s = [] \/ s = [LF].
Proof.
  simpl. rewrite andb_true_r. destruct s as [|c [|c' s]]; simpl.
  - split; auto.
  - rewrite N.eqb_eq. split.
    + intros ->; auto.
    + intros [H|H]; [discriminate | injection H; auto].
  - split; [discriminate | intros [H|H]; discriminate].
Qed.

(** The subject strings of which [SEMVER_TAG_RE.match] finds a match: the
    strings of the shape [v<digits>.<digits>.<digits>], and these
    followed by one newline. *)
Lemma semver_match_spec (s : str) :
  re_match SEMVER_TAG_RE s = true <->
  semver_shape s \/ exists s', semver_shape s' /\ s = s' ++ [LF].
Proof.
  unfold re_match, SEMVER_TAG_RE.
  change (matches_here (AtBeginning :: ?p) true s)
    with (true && matches_here p true s).
  rewrite andb_true_l, matches_one. split.
  - intros (c & r0 & -> & Hv & H).
    apply N.eqb_eq in Hv; subst c.
    apply matches_plus in H as (major & r1 & -> & Hmaj & Hmajd & H).
    apply matches_one in H as (c & r2 & -> & Hc & H).
    apply N.eqb_eq in Hc; subst c.
    apply matches_plus in H as (minor & r3 & -> & Hmin & Hmind & H).
    apply matches_one in H as (c & r4 & -> & Hc & H).
    apply N.eqb_eq in Hc; subst c.
    apply matches_plus in H as (patch & r5 & -> & Hpat & Hpatd & H).
    apply matches_at_end in H.
    assert (Hs : semver_shape
                   (lit "v" ++ major ++ lit "." ++ minor ++ lit "." ++ patch)).
    { exists major, minor, patch. unfold digits. repeat split; auto. }
    destruct H as [-> | ->].
    + left. rewrite app_nil_r. exact Hs.
    + right. eexists; split; [exact Hs|].
      simpl. rewrite <- !app_assoc. simpl. rewrite <- !app_assoc. reflexivity.
  - assert (Hgen : forall major minor patch tail,
               digits major -> digits minor -> digits patch ->
               tail = [] \/ tail = [LF] ->
               exists c rest,
                 lit "v" ++ major ++ lit "." ++ minor ++ lit "." ++ patch
                 ++ tail = c :: rest /\
                 atom_matches (Literal 118) c = true /\
                 matches_here
                   [Plus CategoryDigit; One (Literal 46); Plus CategoryDigit;
                    One (Literal 46); Plus CategoryDigit; AtEnd] false rest
                 = true).
    { intros major minor patch tail [Hmaj Hmajd] [Hmin Hmind] [Hpat Hpatd] Ht.
      eexists; eexists. split; [reflexivity|]. split; [reflexivity|].
      apply matches_plus. exists major; eexists.
      split; [reflexivity|]. split; [exact Hmaj|]. split; [exact Hmajd|].
      apply matches_one. eexists; eexists.
      split; [reflexivity|]. split; [reflexivity|].
      apply matches_plus. exists minor; eexists.
      split; [reflexivity|]. split; [exact Hmin|]. split; [exact Hmind|].
      apply matches_one. eexists; eexists.
      split; [reflexivity|]. split; [reflexivity|].
      apply matches_plus. exists patch, tail.
      split; [reflexivity|]. split; [exact Hpat|]. split; [exact Hpatd|].
      now apply matches_at_end. }
    intros [(major & minor & patch & H1 & H2 & H3 & ->)
           | (s' & (major & minor & patch & H1 & H2 & H3 & ->) & ->)].
    + destruct (Hgen major minor patch [] H1 H2 H3 (or_introl eq_refl))
        as (c & rest & E & Hc & Hm).
      rewrite app_nil_r in E. eauto.
    + destruct (Hgen major minor patch [LF] H1 H2 H3 (or_intror eq_refl))
        as (c & rest & E & Hc & Hm).
      exists c, rest. split; [|auto].
      rewrite <- E. simpl. rewrite <- !app_assoc. simpl.
      rewrite <- !app_assoc. reflexivity.
Qed.

Lemma last_app_singleton (s : str) (c d : char) : last (s ++ [c]) d = c.
Proof. apply last_last. Qed.

(** A trimmed string accepted by the pattern has exactly the shape. *)
Lemma trimmed_semver_shape (s : str) :
  trimmed s -> re_match SEMVER_TAG_RE s = true -> semver_shape s.
Proof.
  intros (_ & _ & _ & Hlast) H.
  apply semver_match_spec in H as [H | (s' & _ & ->)]; [exact H|].
  rewrite last_app_singleton in Hlast. discriminate.
Qed.

Lemma list_tags_shape (w : World) :
  Forall (fun t => trimmed t /\ semver_shape t) (list_tags w).
Proof.
  unfold list_tags. apply Forall_forall. intros t Ht.
  apply filter_In in Ht as [Hin Hm].
  pose proof (stripped_lines_trimmed (stdout (subprocess_run w cmd_tag_list)))
    as Hall.
  rewrite Forall_forall in Hall. specialize (Hall t Hin).
  split; [exact Hall|]. now apply trimmed_semver_shape.
Qed.

(* ------------------------------------------------------------------ *)
(** * The queries of one run *)
(* ------------------------------------------------------------------ *)

Lemma nth_error_after (pre : list str) (tag : str) (older : list str) :
  nth_error (pre ++ tag :: older) (length pre) = Some tag /\
  nth_error (pre ++ tag :: older) (S (length pre)) = hd_error older.
Proof.
  split.
  - rewrite nth_error_app2, Nat.sub_diag by lia. reflexivity.
  - rewrite nth_error_app2 by lia.
    replace (S (length pre) - length pre)%nat with 1%nat by lia.
    destruct older; reflexivity.
Qed.

Lemma commands_for_positional (suf pre : list str) :
  commands_for suf
  = flat_map (queries_at (pre ++ suf)) (seq (length pre) (length suf)).
Proof.
  revert pre; induction suf as [|tag older IH]; intros pre; [reflexivity|].
  cbn [commands_for length seq flat_map]. unfold queries_at at 1.
  destruct (nth_error_after pre tag older) as [-> ->].
  cbn [app]. do 2 f_equal.
  rewrite (IH (pre ++ [tag])), <- app_assoc, length_app.
  cbn [length app]. now rewrite Nat.add_1_r.
Qed.

Lemma queries_succeed_commands (w : World) (tags : list str) :
  queries_succeed w tags -> Forall (succeeds w) (commands_for tags).
Proof.
  intros H. rewrite (commands_for_positional tags []).
  apply Forall_forall. intros cmd Hin.
  apply in_flat_map in Hin as (i & _ & Hin). exact (H i cmd Hin).
Qed.

(** What [git_tag_list_sorted_desc] returns, when it returns. *)
Lemma git_tag_list_sorted_desc_ok (w : World) (st st1 : State)
    (tags : list str) :
  git_tag_list_sorted_desc w st = Ok (tags, st1) ->
  succeeds w cmd_tag_list /\ tags = list_tags w /\
  st1 = {| calls := calls st ++ [cmd_tag_list];
           clock_reads := clock_reads st |}.
Proof.
  unfold git_tag_list_sorted_desc, bind. rewrite run_checked.
  fold cmd_tag_list. unfold succeeds.
  destruct (Z.eqb_spec (returncode (subprocess_run w cmd_tag_list)) 0)
    as [E|E]; [|discriminate].
  unfold ret. intros H; injection H as <- <-. auto.
Qed.

(** The run of [build_changelog] on a non-empty tag list whose queries
    all succeed. *)
Lemma build_changelog_run (w : World) (st st1 : State) (tags : list str) :
  git_tag_list_sorted_desc w st = Ok (tags, st1) ->
  tags <> [] ->
  queries_succeed w tags ->
  build_changelog w st
  = Ok (render (sections_from w tags (clock_reads st)),
        {| calls := calls st ++ cmd_tag_list
                    :: flat_map (queries_at tags) (seq 0 (length tags));
           clock_reads := clock_reads st + absent_dates w tags |}).
Proof.
  intros Htags Hne Hq.
  apply git_tag_list_sorted_desc_ok in Htags as (Hok & -> & _).
  rewrite build_changelog_ok.
  - unfold issued. rewrite (commands_for_positional (list_tags w) []).
    destruct (list_tags w); [congruence | reflexivity].
  - constructor; [exact Hok | now apply queries_succeed_commands].
Qed.

(* ------------------------------------------------------------------ *)
(** * Properties of the changelog builder *)
(* ------------------------------------------------------------------ *)

(** C4. When the tag list is empty, [build_changelog] returns normally,
    and what it returns is the one-line text [No tags found.] followed by
    a newline; it makes no further query. *)
Theorem build_changelog_no_tags (w : World) (st st1 : State) :
  git_tag_list_sorted_desc w st = Ok ([], st1) ->
  build_changelog w st = Ok (lit "No tags found." ++ [LF], st1).
Proof.
  intros H. unfold build_changelog, bind. rewrite H. reflexivity.
Qed.

(** C1. For a non-empty tag list, [build_changelog] goes through the tags
    in the given order; for the tag at position [i] it asks git for the
    non-merge commit subjects of the range that starts after the tag at
    position [i + 1] and ends at the tag itself, or of the whole history
    of the tag when [i] is the last position, and the section at position
    [i] carries exactly the messages of that answer. *)
Theorem build_changelog_ranges (w : World) (st st1 : State)
    (tags : list str) :
  git_tag_list_sorted_desc w st = Ok (tags, st1) ->
  tags <> [] ->
  queries_succeed w tags ->
  exists secs st',
    build_changelog w st = Ok (render secs, st') /\
    map sec_tag secs = tags /\
    (forall i tag, nth_error tags i = Some tag ->
       exists s, nth_error secs i = Some s /\ sec_tag s = tag /\
         sec_messages s
         = commit_messages_between w (nth_error tags (S i)) tag) /\
    calls st' = calls st ++ cmd_tag_list
                :: flat_map (fun i =>
                     match nth_error tags i with
                     | Some tag =>
                         [ [lit "git"; lit "log"; lit "--no-merges";
                            lit "--pretty=format:%s";
                            match nth_error tags (S i) with
                            | Some prev => prev ++ lit ".." ++ tag
                            | None => tag
                            end];
                           cmd_tag_date tag ]
                     | None => []
                     end) (seq 0 (length tags)).
Proof.
  intros Htags Hne Hq.
  exists (sections_from w tags (clock_reads st)). eexists.
  split; [exact (build_changelog_run w st st1 tags Htags Hne Hq)|].
  split; [apply sections_from_tags|]. split.
  - intros i tag Hi.
    destruct (sections_from_nth w tags (clock_reads st) i tag Hi)
      as (s & Hs & Ht & Hm & _).
    exists s; auto.
  - reflexivity.
Qed.

Lemma last_app_nonempty (a b : str) (d : char) :
  b <> [] -> last (a ++ b) d = last b d.
Proof.
  intros Hb. induction a as [|x a IH]; [reflexivity|].
  simpl. destruct (a ++ b) eqn:E; [|exact IH].
  apply app_eq_nil in E as [_ ?]. congruence.
Qed.

Lemma last_cons_default (l : list str) (x y : str) :
  last (y :: l) x = last l y.
Proof.
  revert x y; induction l as [|z l IH]; intros x y; [reflexivity|].
  change (last (y :: z :: l) x) with (last (z :: l) x).
  rewrite (IH x z). symmetry. apply IH.
Qed.

Lemma join_nonempty (sep : str) (l : list str) (x : str) :
  last l x <> [] -> join sep (x :: l) <> [].
Proof.
  revert x; induction l as [|y l IH]; intros x H; [exact H|].
  change (join sep (x :: y :: l)) with (x ++ sep ++ join sep (y :: l)).
  rewrite last_cons_default in H. intros E.
  apply app_eq_nil in E as [_ E]. apply app_eq_nil in E as [_ E].
  exact (IH y H E).
Qed.

(** The last character of a joined text is the last character of its
    last piece. *)
Lemma join_last (sep : str) (l : list str) (x : str) (d : char) :
  last l x <> [] ->
  last (join sep (x :: l)) d = last (last l x) d.
Proof.
  revert x; induction l as [|y l IH]; intros x H; [reflexivity|].
  change (join sep (x :: y :: l)) with (x ++ sep ++ join sep (y :: l)).
  rewrite last_cons_default in *.
  pose proof (join_nonempty sep l y H) as Hne.
  rewrite !last_app_nonempty; auto.
  intros E. apply app_eq_nil in E as [_ E]. congruence.
Qed.

Lemma digit_cases (n : N) :
  In (digit n) [48; 49; 50; 51; 52; 53; 54; 55; 56; 57].
Proof.
  unfold digit. pose proof (N.mod_upper_bound n 10 ltac:(discriminate)) as H.
  set (d := n mod 10) in *. clearbody d.
  assert (E : d = 0 \/ d = 1 \/ d = 2 \/ d = 3 \/ d = 4 \/ d = 5
              \/ d = 6 \/ d = 7 \/ d = 8 \/ d = 9) by lia.
  repeat (destruct E as [-> | E]; [simpl; tauto|]). rewrite E. simpl; tauto.
Qed.

Lemma digit_not_space (n : N) : isspace (digit n) = false.
Proof.
  pose proof (digit_cases n) as H. simpl in H.
  repeat (destruct H as [<- | H]; [reflexivity|]). contradiction.
Qed.

Lemma digit_isdecimal (n : N) : isdecimal (digit n) = true.
Proof.
  pose proof (digit_cases n) as H. simpl in H.
  repeat (destruct H as [<- | H]; [reflexivity|]). contradiction.
Qed.

Lemma splitlines_from_single_line (n : nat) :
  forall (s cur : str),
    (length s <= n)%nat -> single_line cur ->
    Forall single_line (splitlines_from cur s).
Proof.
  induction n as [|n IH]; intros s cur Hlen Hcur.
  - destruct s; [|simpl in Hlen; lia]. simpl.
    destruct cur; constructor; [|constructor].
    apply Forall_rev. exact Hcur.
  - destruct s as [|c s]; simpl.
    + destruct cur; constructor; [|constructor].
      apply Forall_rev. exact Hcur.
    + simpl in Hlen.
      assert (Hrev : single_line (rev cur)) by (apply Forall_rev; exact Hcur).
      destruct (islinebreak c) eqn:Ec.
      * destruct s as [|c' s'].
        -- constructor; [exact Hrev|]. simpl. constructor.
        -- simpl in Hlen.
           destruct ((c =? CR) && (c' =? LF)); constructor; auto;
             apply IH; try constructor; simpl; lia.
      * apply IH; [lia|]. constructor; assumption.
Qed.

Lemma lstrip_single_line (s : str) : single_line s -> single_line (lstrip s).
Proof.
  induction 1 as [|c s Hc Hs IH]; simpl; [constructor|].
  destruct (isspace c); [exact IH | constructor; assumption].
Qed.

Lemma strip_single_line (s : str) : single_line s -> single_line (strip s).
Proof.
  intros H. unfold strip, rstrip. apply Forall_rev.
  apply lstrip_single_line. apply Forall_rev.
  now apply lstrip_single_line.
Qed.

Lemma stripped_lines_single_line (text : str) :
  Forall single_line (stripped_lines text).
Proof.
  unfold stripped_lines, splitlines.
  pose proof (splitlines_from_single_line (length text) text []
                (Nat.le_refl _) (Forall_nil _)) as H.
  apply Forall_forall. intros m Hm.
  apply in_map_iff in Hm as (ln & <- & Hin).
  apply filter_In in Hin as [Hin _].
  rewrite Forall_forall in H. apply strip_single_line. now apply H.
Qed.

Lemma trimmed_intro (s : str) :
  s <> [] -> isspace (hd 0 s) = false -> isspace (last s 0) = false ->
  trimmed s.
Proof.
  intros Hne Hhd Hlast. repeat split; auto.
  destruct s as [|c r]; [congruence|]. simpl in Hhd.
  unfold strip. rewrite (lstrip_nonspace c r Hhd). unfold rstrip.
  destruct (rev (c :: r)) as [|x y] eqn:E.
  - apply (f_equal (@length char)) in E. rewrite length_rev in E.
    discriminate.
  - assert (Hx : isspace x = false).
    { assert (E' : c :: r = rev y ++ [x]).
      { rewrite <- (rev_involutive (c :: r)), E. reflexivity. }
      rewrite E', last_last in Hlast. exact Hlast. }
    rewrite (lstrip_nonspace x y Hx), <- E. apply rev_involutive.
Qed.

Lemma strftime_Ymd_trimmed (t : datetime) : trimmed (strftime_Ymd t).
Proof.
  apply trimmed_intro; [discriminate | apply digit_not_space..].
Qed.

Lemma sections_from_well_formed (w : World) (tags : list str) (k : nat) :
  Forall (fun t => trimmed t /\ semver_shape t) tags ->
  Forall well_formed_section (sections_from w tags k).
Proof.
  intros H; revert k; induction H as [|t ts [Ht Hs] _ IH]; intros k;
    [constructor|].
  cbn [sections_from]. constructor; [|apply IH].
  unfold well_formed_section; cbn [sec_tag sec_date sec_messages].
  repeat split; try apply Ht; auto.
  - destruct (truthy (tag_creation_date w t)) eqn:E.
    + apply (strip_trimmed _ E).
    + apply strftime_Ymd_trimmed.
  - destruct (truthy (tag_creation_date w t)) eqn:E.
    + apply (strip_trimmed _ E).
    + apply strftime_Ymd_trimmed.
  - destruct (truthy (tag_creation_date w t)) eqn:E.
    + apply (strip_trimmed _ E).
    + apply strftime_Ymd_trimmed.
  - destruct (truthy (tag_creation_date w t)) eqn:E.
    + apply (strip_trimmed _ E).
    + apply strftime_Ymd_trimmed.
  - apply stripped_lines_trimmed.
  - apply stripped_lines_single_line.
Qed.

Lemma bullet_line_ends_clean (m : str) : trimmed m -> ends_clean (bullet_line m).
Proof.
  intros (Hne & _ & _ & Hl). unfold bullet_line, ends_clean.
  rewrite last_app_nonempty by exact Hne.
  split; [|exact Hl]. intros E. apply app_eq_nil in E as [_ E]. congruence.
Qed.

Lemma last_bullet_ends_clean (ms : list str) (d : str) :
  ends_clean d -> Forall trimmed ms ->
  ends_clean (last (map bullet_line ms) d).
Proof.
  intros Hd H; revert d Hd; induction H as [|m ms Hm _ IH]; intros d Hd;
    [exact Hd|].
  cbn [map]. rewrite last_cons_default. apply IH.
  now apply bullet_line_ends_clean.
Qed.

Lemma render_section_last (s : section) :
  well_formed_section s -> ends_clean (render_section s).
Proof.
  intros (_ & _ & (Hdne & _ & _ & Hdl) & Hm & _).
  unfold render_section.
  set (hdr := header_line (sec_tag s) (sec_date s)).
  assert (Hhdr : ends_clean hdr).
  { unfold hdr, header_line, ends_clean.
    rewrite app_assoc, app_assoc, last_app_nonempty by exact Hdne.
    split; [|exact Hdl]. intros E. apply app_eq_nil in E as [_ E].
    congruence. }
  destruct (last_bullet_ends_clean (sec_messages s) hdr Hhdr Hm) as [H1 H2].
  split.
  - now apply join_nonempty.
  - rewrite join_last; auto.
Qed.

Lemma render_ends (secs : list section) :
  secs <> [] -> Forall well_formed_section secs ->
  exists body c, render secs = body ++ [c; LF] /\ isspace c = false.
Proof.
  intros Hne Hwf. unfold render.
  destruct secs as [|s0 secs]; [congruence|]. cbn [map].
  assert (Hl : ends_clean (last (map render_section secs)
                                (render_section s0))).
  { inversion Hwf as [|? ? H0 Hrest]; subst. clear Hwf Hne.
    revert s0 H0; induction Hrest as [|s1 secs H1 _ IH]; intros s0 H0.
    - now apply render_section_last.
    - cbn [map]. rewrite last_cons_default. now apply IH. }
  destruct Hl as [Hl1 Hl2].
  set (J := join [LF; LF] (render_section s0 :: map render_section secs)).
  assert (HJ : J <> []) by now apply join_nonempty.
  exists (removelast J), (last J 0). split.
  - rewrite (app_removelast_last 0 HJ) at 1.
    rewrite <- app_assoc. reflexivity.
  - unfold J. rewrite join_last; auto.
Qed.

(** The views of section "The collaborator's answers" are what the git
    helpers return. *)
Lemma commits_between_response (w : World) (a_excl : option str)
    (b_incl : str) (st : State) :
  succeeds w (cmd_log a_excl b_incl) ->
  commits_between w a_excl b_incl st
  = Ok (commit_messages_between w a_excl b_incl,
        {| calls := calls st ++ [cmd_log a_excl b_incl];
           clock_reads := clock_reads st |}).
Proof.
  intros H. unfold commits_between, bind. rewrite run_checked.
  change [lit "git"; lit "log"; lit "--no-merges";
          lit "--pretty=format:" ++ lit "%s";
          match a_excl with
          | Some a => a ++ lit ".." ++ b_incl
          | None => b_incl
          end] with (cmd_log a_excl b_incl).
  unfold succeeds in H. rewrite H. reflexivity.
Qed.

Lemma tag_date_response (w : World) (tag : str) (st : State) :
  succeeds w (cmd_tag_date tag) ->
  tag_date w tag st
  = Ok (tag_creation_date w tag,
        {| calls := calls st ++ [cmd_tag_date tag];
           clock_reads := clock_reads st |}).
Proof.
  intros H. unfold tag_date, bind. rewrite run_checked.
  fold (cmd_tag_date tag). unfold succeeds in H. rewrite H. reflexivity.
Qed.

Lemma list_tags_well_formed (w : World) (k : nat) :
  Forall well_formed_section (sections_from w (list_tags w) k).
Proof. apply sections_from_well_formed, list_tags_shape. Qed.

(** C3. For the tags [v2.0.0; v1.0.0], with the messages [init] up to
    [v1.0.0] and [feature A], [fix B] from [v1.0.0] to [v2.0.0], the text
    is the section of [v2.0.0] with its two bullets, a blank line, the
    section of [v1.0.0] with its bullet, and a final newline. *)
Theorem build_changelog_two_tags (w : World) (st st1 : State) :
  git_tag_list_sorted_desc w st = Ok ([v2; v1], st1) ->
  queries_succeed w [v2; v1] ->
  commit_messages_between w None v1 = [lit "init"] ->
  commit_messages_between w (Some v1) v2 = [lit "feature A"; lit "fix B"] ->
  let date2 := resolved_date w (clock_reads st) v2 in
  let date1 := resolved_date w (clock_reads st + absent_dates w [v2]) v1 in
  output (build_changelog w st)
  = Ok (lit "## v2.0.0 " ++ [EM_DASH] ++ lit " " ++ date2 ++ [LF]
        ++ lit "- feature A" ++ [LF]
        ++ lit "- fix B" ++ [LF]
        ++ [LF]
        ++ lit "## v1.0.0 " ++ [EM_DASH] ++ lit " " ++ date1 ++ [LF]
        ++ lit "- init" ++ [LF]).
Proof.
  intros Htags Hq Hm1 Hm2 date2 date1.
  rewrite (build_changelog_run w st st1 [v2; v1] Htags
             ltac:(discriminate) Hq).
  cbn [output sections_from hd_error]. rewrite Hm1, Hm2.
  unfold render, render_section, header_line, bullet_line.
  cbn [map join sec_tag sec_date sec_messages].
  fold (resolved_date w (clock_reads st) v2).
  replace (if truthy (tag_creation_date w v2)
           then clock_reads st else S (clock_reads st))
    with (clock_reads st + absent_dates w [v2])%nat
    by (cbn [absent_dates]; destruct (truthy (tag_creation_date w v2)); lia).
  fold (resolved_date w (clock_reads st + absent_dates w [v2]) v1).
  fold date1 date2. f_equal.
  repeat (rewrite <- app_assoc || cbn [app lit map list_ascii_of_string]).
  reflexivity.
Qed.

Lemma digit_ascii (n : N) : between 48 57 (digit n) = true.
Proof.
  pose proof (digit_cases n) as H. simpl in H.
  repeat (destruct H as [<- | H]; [reflexivity|]). contradiction.
Qed.

Lemma strftime_Ymd_format (t : datetime) : is_Ymd (strftime_Ymd t) = true.
Proof.
  unfold strftime_Ymd, is_Ymd. cbn [forallb].
  rewrite !digit_ascii. reflexivity.
Qed.

(* ------------------------------------------------------------------ *)
(** * Determinism *)
(* ------------------------------------------------------------------ *)

(* ------------------------------------------------------------------ *)
(** * Adjacent sections *)
(* ------------------------------------------------------------------ *)

(* ------------------------------------------------------------------ *)
(** * Version validation *)
(* ------------------------------------------------------------------ *)



(** What [validate_version] does on every string. *)
Lemma validate_version_spec (tag : str) :
  (semver_shape tag \/ (exists s, semver_shape s /\ tag = s ++ [LF])) /\
  validate_version tag = Ok tt
  \/
  ~ (semver_shape tag \/ (exists s, semver_shape s /\ tag = s ++ [LF])) /\
  validate_version tag
  = Raise (SystemExit (lit "ERROR: Version must match syntax v1.2.3")).
Proof.
  unfold validate_version.
  destruct (re_match SEMVER_TAG_RE tag) eqn:E.
  - left. split; [now apply semver_match_spec | reflexivity].
  - right. split; [|reflexivity].
    intros H. apply semver_match_spec in H. congruence.
Qed.


(** A missing [v], too few or too many components, a component that is
    not a number, and characters before or after the version are all
    refused. *)
Lemma validate_version_rejects :
  Forall (fun tag =>
            validate_version tag
            = Raise (SystemExit
                       (lit "ERROR: Version must match syntax v1.2.3")))
    [ lit "1.2.3"; lit "v1.2"; lit "v1.2.3.4"; lit "v1.x.3"; lit "v1..3";
      lit " v1.2.3"; lit "v1.2.3 "; lit "xv1.2.3"; lit "v1.2.3-rc1";
      lit "V1.2.3"; lit "v1.2.3" ++ [LF; LF]; [] ].
Proof. repeat constructor. Qed.

(* ------------------------------------------------------------------ *)
(** * The properties on the example repositories *)
(* ------------------------------------------------------------------ *)

Lemma build_changelog_no_tags_witness :
  build_changelog untagged_world st0
  = Ok (lit "No tags found." ++ [LF], after_tag_list).
Proof.
  apply (build_changelog_no_tags untagged_world st0 after_tag_list).
  vm_compute. reflexivity.
Defined.

Lemma build_changelog_ranges_witness :
  exists secs st',
    build_changelog dated_world st0 = Ok (render secs, st') /\
    map sec_tag secs = [v2; v1].
Proof.
  destruct (build_changelog_ranges dated_world st0 after_tag_list [v2; v1])
    as (secs & st' & H & Ht & _).
  - vm_compute. reflexivity.
  - discriminate.
  - intros i cmd _. reflexivity.
  - exists secs, st'. split; assumption.
Defined.

Lemma build_changelog_two_tags_witness :
  output (build_changelog dated_world st0)
  = Ok (lit "## v2.0.0 " ++ [EM_DASH] ++ lit " 2024-02-02" ++ [LF]
        ++ lit "- feature A" ++ [LF]
        ++ lit "- fix B" ++ [LF]
        ++ [LF]
        ++ lit "## v1.0.0 " ++ [EM_DASH] ++ lit " 2024-01-01" ++ [LF]
        ++ lit "- init" ++ [LF]).
Proof.
  apply (build_changelog_two_tags dated_world st0 after_tag_list).
  - vm_compute. reflexivity.
  - intros i cmd _. reflexivity.
  - vm_compute. reflexivity.
  - vm_compute. reflexivity.
Defined.

(* ------------------------------------------------------------------ *)
(** * Further properties of the changelog builder *)
(* ------------------------------------------------------------------ *)

Lemma first_failure_at (w : World) (pre : list command) (cmd : command)
    (post : list command) :
  Forall (succeeds w) pre ->
  ~ succeeds w cmd ->
  first_failure w (pre ++ cmd :: post)
  = Some (CalledProcessError cmd (returncode (subprocess_run w cmd))).
Proof.
  intros Hpre Hcmd. induction Hpre as [|c cs Hc _ IH]; simpl.
  - destruct (Z.eqb_spec (returncode (subprocess_run w cmd)) 0) as [E|E];
      [now elim Hcmd | reflexivity].
  - unfold succeeds in Hc. rewrite Hc. exact IH.
Qed.

(** X1. A failing git command stops the builder: when the commands of a
    run succeed up to one that exits with a non-zero status,
    [build_changelog] raises [CalledProcessError] for that command, with
    its status, and returns no text. *)
Theorem build_changelog_propagates_failure (w : World) (st : State)
    (pre : list command) (cmd : command) (post : list command) :
  issued w = pre ++ cmd :: post ->
  Forall (succeeds w) pre ->
  ~ succeeds w cmd ->
  build_changelog w st
  = Raise (CalledProcessError cmd (returncode (subprocess_run w cmd))).
Proof.
  intros Hi Hpre Hcmd.
  rewrite build_changelog_closed, Hi, (first_failure_at w pre cmd post Hpre Hcmd).
  reflexivity.
Qed.

Lemma commands_for_length (tags : list str) :
  length (commands_for tags) = (2 * length tags)%nat.
Proof.
  induction tags as [|t ts IH]; [reflexivity|].
  cbn [commands_for length]. rewrite IH. lia.
Qed.

Lemma absent_dates_count (w : World) (tags : list str) :
  absent_dates w tags
  = length (filter (fun t => negb (truthy (tag_creation_date w t))) tags).
Proof.
  induction tags as [|t ts IH]; [reflexivity|].
  cbn [absent_dates filter]. rewrite IH.
  destruct (truthy (tag_creation_date w t)); reflexivity.
Qed.

(** X2. A run of [build_changelog] that returns has started one git
    command to list the tags and two for each listed tag, and has read
    the clock once for each listed tag without a date: not at all when
    every tag has one. *)
Theorem build_changelog_effort (w : World) (st st' : State) (text : str) :
  build_changelog w st = Ok (text, st') ->
  length (calls st')
  = (length (calls st) + 1 + 2 * length (list_tags w))%nat /\
  clock_reads st'
  = (clock_reads st
     + length (filter (fun t => negb (truthy (tag_creation_date w t)))
                      (list_tags w)))%nat /\
  ((forall t, In t (list_tags w) -> tag_creation_date w t <> []) ->
   clock_reads st' = clock_reads st).
Proof.
  rewrite build_changelog_closed.
  destruct (first_failure w (issued w)); [discriminate|].
  intros H; injection H as _ <-. cbn [calls clock_reads].
  split; [|split].
  - rewrite length_app. unfold issued. cbn [length].
    rewrite commands_for_length. lia.
  - rewrite absent_dates_count. reflexivity.
  - intros Hall. rewrite absent_dates_count.
    replace (filter _ (list_tags w)) with (@nil str); [simpl; lia|].
    symmetry. induction (list_tags w) as [|t ts IH]; [reflexivity|].
    cbn [filter].
    destruct (tag_creation_date w t) eqn:E.
    + elim (Hall t); [now left | exact E].
    + cbn [truthy negb]. apply IH. intros u Hu. apply Hall. now right.
Qed.

Lemma semver_shape_head (s : str) :
  semver_shape s -> exists rest, s = 118 :: rest.
Proof.
  intros (major & minor & patch & _ & _ & _ & ->). eexists. reflexivity.
Qed.

Lemma commands_for_revisions (tags : list str) :
  Forall (fun t => exists rest, t = 118 :: rest) tags ->
  Forall (fun cmd =>
            exists rest,
              cmd = [lit "git"; lit "log"; lit "--no-merges";
                     lit "--pretty=format:%s"; 118 :: rest] \/
              cmd = [lit "git"; lit "log"; lit "-1"; lit "--format=%ad";
                     lit "--date=short"; 118 :: rest])
         (commands_for tags).
Proof.
  induction 1 as [|t ts (rest & ->) Hts IH]; [constructor|].
  cbn [commands_for]. constructor; [|constructor; [|exact IH]].
  - destruct ts as [|u us]; cbn [hd_error].
    + exists rest. left. reflexivity.
    + inversion Hts as [|? ? (rest' & ->) _]; subst.
      eexists. left. reflexivity.
  - exists rest. right. reflexivity.
Qed.

(** X3. No tag reaches git as an option: apart from the listing of the
    tags, every command that a returning run of [build_changelog] has
    started is one of its two [git log] command lines, made of fixed
    words and of one last word that begins with the letter [v]. *)
Theorem build_changelog_arguments (w : World) (st st' : State) (text : str) :
  build_changelog w st = Ok (text, st') ->
  exists started,
    calls st' = calls st ++ cmd_tag_list :: started /\
    Forall (fun cmd =>
              exists rest,
                cmd = [lit "git"; lit "log"; lit "--no-merges";
                       lit "--pretty=format:%s"; 118 :: rest] \/
                cmd = [lit "git"; lit "log"; lit "-1"; lit "--format=%ad";
                       lit "--date=short"; 118 :: rest])
           started.
Proof.
  rewrite build_changelog_closed.
  destruct (first_failure w (issued w)); [discriminate|].
  intros H; injection H as _ <-. cbn [calls].
  exists (commands_for (list_tags w)). split; [reflexivity|].
  apply commands_for_revisions.
  pose proof (list_tags_shape w) as Hs. rewrite Forall_forall in *.
  intros t Ht. destruct (Hs t Ht) as [_ Hsh]. now apply semver_shape_head.
Qed.

(* ------------------------------------------------------------------ *)
(** * Further properties of the version check *)
(* ------------------------------------------------------------------ *)

Lemma stripped_no_final_newline (s : str) :
  strip (s ++ [LF]) = s ++ [LF] -> False.
Proof.
  intros E.
  assert (Hne : strip (s ++ [LF]) <> []).
  { rewrite E. intros H. apply app_eq_nil in H as [_ H]. discriminate. }
  pose proof (strip_last (s ++ [LF]) 0 Hne) as Hl.
  rewrite E, last_last in Hl. discriminate.
Qed.

(** X4. On a version without surrounding whitespace, as [str.strip]
    leaves it, [validate_version] returns normally exactly when the
    version is [v<digits>.<digits>.<digits>], and raises [SystemExit]
    with its message otherwise. *)
Theorem validate_version_stripped (tag : str) :
  strip tag = tag ->
  (semver_shape tag /\ validate_version tag = Ok tt) \/
  (~ semver_shape tag /\
   validate_version tag
   = Raise (SystemExit (lit "ERROR: Version must match syntax v1.2.3"))).
Proof.
  intros Hs.
  destruct (validate_version_spec tag)
    as [[[Hsh | (s & _ & ->)] E] | [Hn E]].
  - left. split; assumption.
  - elim (stripped_no_final_newline s Hs).
  - right. split; [|exact E]. intros Hsh. apply Hn. now left.
Qed.

Lemma build_changelog_propagates_failure_witness :
  build_changelog broken_date_world st0
  = Raise (CalledProcessError (cmd_tag_date v1) 128).
Proof.
  apply (build_changelog_propagates_failure broken_date_world st0
           [cmd_tag_list; cmd_log (Some v1) v2; cmd_tag_date v2;
            cmd_log None v1]
           (cmd_tag_date v1) []).
  - vm_compute. reflexivity.
  - repeat constructor.
  - vm_compute. discriminate.
Defined.

Lemma build_changelog_effort_witness :
  exists text st',
    build_changelog undated_world st0 = Ok (text, st') /\
    length (calls st') = 5%nat /\ clock_reads st' = 1%nat.
Proof.
  destruct (build_changelog undated_world st0) as [[text st']|e] eqn:E;
    [|vm_compute in E; discriminate].
  destruct (build_changelog_effort undated_world st0 st' text E)
    as (Hc & Hr & _).
  exists text, st'. split; [reflexivity|]. split.
  - rewrite Hc. vm_compute. reflexivity.
  - rewrite Hr. vm_compute. reflexivity.
Defined.

Lemma build_changelog_arguments_witness :
  exists text st' started,
    build_changelog dated_world st0 = Ok (text, st') /\
    calls st' = calls st0 ++ cmd_tag_list :: started.
Proof.
  destruct (build_changelog dated_world st0) as [[text st']|e] eqn:E;
    [|vm_compute in E; discriminate].
  destruct (build_changelog_arguments dated_world st0 st' text E)
    as (started & Hc & _).
  exists text, st', started. split; [reflexivity | exact Hc].
Defined.

Lemma validate_version_stripped_witness :
  (semver_shape (lit "v1.2.3") /\ validate_version (lit "v1.2.3") = Ok tt) \/
  (~ semver_shape (lit "v1.2.3") /\
   validate_version (lit "v1.2.3")
   = Raise (SystemExit (lit "ERROR: Version must match syntax v1.2.3"))).
Proof.
  apply (validate_version_stripped (lit "v1.2.3")). vm_compute. reflexivity.
Defined.

(* ------------------------------------------------------------------ *)
(** * Properties of the prompts *)
(* ------------------------------------------------------------------ *)

Lemma blank_not_truthy (line : str) :
  forallb isspace line = true -> truthy (strip line) = false.
Proof. intros H. apply strip_empty in H. rewrite H. reflexivity. Qed.

Lemma not_blank_truthy (line : str) :
  forallb isspace line = false -> truthy (strip line) = true.
Proof.
  intros H. destruct (strip line) eqn:E; [|reflexivity].
  apply strip_empty in E. congruence.
Qed.

Lemma ask_loop_required (text : str) (keys shown : list str) :
  (Forall (fun l => forallb isspace l = true) keys /\
   ask_loop text None keys shown
   = EOFError {| keyboard := [];
                 screen := shown ++ repeat text (S (length keys)) |})
  \/
  (exists blanks line rest,
     keys = blanks ++ line :: rest /\
     Forall (fun l => forallb isspace l = true) blanks /\
     forallb isspace line = false /\
     ask_loop text None keys shown
     = Returned (strip line)
         {| keyboard := rest;
            screen := shown ++ repeat text (S (length blanks)) |}).
Proof.
  revert shown; induction keys as [|line keys IH]; intros shown.
  - left. split; [constructor | reflexivity].
  - cbn [ask_loop].
    replace (if negb (truthy (strip line)) then @None str else None)
      with (@None str) by (destruct (negb (truthy (strip line))); reflexivity).
    destruct (forallb isspace line) eqn:Hb.
    + rewrite (blank_not_truthy line Hb).
      destruct (IH (shown ++ [text]))
        as [[Hall E] | (blanks & l & rest & -> & Hall & Hl & E)].
      * left. split; [constructor; assumption|].
        rewrite E, <- app_assoc. reflexivity.
      * right. exists (line :: blanks), l, rest.
        split; [reflexivity|]. split; [constructor; assumption|].
        split; [exact Hl|]. rewrite E, <- app_assoc. reflexivity.
    + rewrite (not_blank_truthy line Hb).
      right. exists [], line, keys. repeat split; auto.
Qed.

(** X5. Without a default, [ask] skips the lines that are empty or all
    whitespace and returns the first other line, stripped: what it
    returns is never empty and has no whitespace at either end.  It
    writes the prompt once for each line it reads, and when only blank
    lines are left the end of the input raises [EOFError]. *)
Theorem ask_required (prompt : str) (c : Console) :
  (Forall (fun l => forallb isspace l = true) (keyboard c) /\
   ask prompt None c
   = EOFError {| keyboard := [];
                 screen := screen c
                           ++ repeat (prompt ++ lit ": ")
                                     (S (length (keyboard c))) |})
  \/
  (exists blanks line rest,
     keyboard c = blanks ++ line :: rest /\
     Forall (fun l => forallb isspace l = true) blanks /\
     trimmed (strip line) /\
     ask prompt None c
     = Returned (strip line)
         {| keyboard := rest;
            screen := screen c
                      ++ repeat (prompt ++ lit ": ")
                                (S (length blanks)) |}).
Proof.
  unfold ask.
  destruct (ask_loop_required (prompt ++ [] ++ lit ": ") (keyboard c)
              (screen c))
    as [[Hall E] | (blanks & line & rest & Hk & Hall & Hl & E)].
  - left. split; [exact Hall | exact E].
  - right. exists blanks, line, rest. split; [exact Hk|].
    split; [exact Hall|]. split; [|exact E].
    apply strip_trimmed. now apply not_blank_truthy.
Qed.

(** X6. The version that [main] reads with [ask] and hands to
    [validate_version] passes the check exactly when it is
    [v<digits>.<digits>.<digits>]: what [ask] returns cannot end with a
    newline. *)
Theorem asked_version_checked (prompt : str) (c c' : Console)
    (version : str) :
  ask prompt None c = Returned version c' ->
  (semver_shape version /\ validate_version version = Ok tt) \/
  (~ semver_shape version /\
   validate_version version
   = Raise (SystemExit (lit "ERROR: Version must match syntax v1.2.3"))).
Proof.
  intros Hask.
  assert (Hs : strip version = version).
  { destruct (ask_required prompt c)
      as [[_ E] | (blanks & line & rest & _ & _ & _ & E)];
      rewrite E in Hask; [discriminate|].
    injection Hask as <- _. apply strip_idem. }
  destruct (validate_version_spec version)
    as [[[Hsh | (s & _ & ->)] E] | [Hn E]].
  - left. split; assumption.
  - elim (stripped_no_final_newline s Hs).
  - right. split; [|exact E]. intros Hsh. apply Hn. now left.
Qed.

Lemma answer_in_spec (v : str) (choices : list str) :
  answer_in v choices = true <-> In v choices.
Proof.
  unfold answer_in. rewrite existsb_exists. split.
  - intros (x & Hin & Hx). destruct (str_eq_dec v x); [subst; exact Hin|].
    discriminate.
  - intros Hin. exists v. split; [exact Hin|].
    destruct (str_eq_dec v v); [reflexivity | congruence].
Qed.

Lemma ask_yes_no_loop_returned (lower : str -> str) (text : str)
    (default_yes : bool) (keys shown : list str) (b : bool) (c' : Console) :
  ask_yes_no_loop lower text default_yes keys shown = Returned b c' ->
  exists rejected line,
    keys = rejected ++ line :: keyboard c' /\
    Forall (fun l => lower (strip l) <> [] /\
                     ~ In (lower (strip l))
                          [lit "y"; lit "yes"; lit "n"; lit "no"]) rejected /\
    (lower (strip line) = [] /\ b = default_yes \/
     In (lower (strip line)) [lit "y"; lit "yes"] /\ b = true \/
     In (lower (strip line)) [lit "n"; lit "no"] /\ b = false) /\
    screen c'
    = shown ++ flat_map (fun _ => [text; yes_no_reminder]) rejected ++ [text].
Proof.
  revert shown; induction keys as [|line keys IH]; intros shown H;
    [discriminate|].
  cbn [ask_yes_no_loop] in H.
  destruct (lower (strip line)) as [|x v] eqn:Ev.
  - cbn [truthy negb] in H. injection H as <- <-.
    exists [], line. cbn [keyboard screen]. rewrite Ev.
    repeat split; auto.
  - cbn [truthy negb] in H. rewrite <- Ev in *.
    destruct (answer_in (lower (strip line)) [lit "y"; lit "yes"]) eqn:Ey.
    { injection H as <- <-. exists [], line. cbn [keyboard screen].
      apply answer_in_spec in Ey. repeat split; auto. }
    destruct (answer_in (lower (strip line)) [lit "n"; lit "no"]) eqn:En.
    { injection H as <- <-. exists [], line. cbn [keyboard screen].
      apply answer_in_spec in En. repeat split; auto. }
    apply IH in H as (rejected & l & -> & Hrej & Hdec & Hscr).
    exists (line :: rejected), l. split; [reflexivity|]. split.
    + constructor; [|exact Hrej]. split; [rewrite Ev; discriminate|].
      intros Hin.
      assert (Hy : ~ In (lower (strip line)) [lit "y"; lit "yes"]).
      { intros Hi. apply answer_in_spec in Hi. congruence. }
      assert (Hn : ~ In (lower (strip line)) [lit "n"; lit "no"]).
      { intros Hi. apply answer_in_spec in Hi. congruence. }
      cbn [In] in Hin, Hy, Hn. tauto.
    + split; [exact Hdec|]. rewrite Hscr.
      unfold print, yes_no_reminder. cbn [screen keyboard flat_map].
      rewrite <- !app_assoc. reflexivity.
Qed.

(** X7. When [ask_yes_no] returns, it has read lines up to the first one
    that, stripped and in lower case, is empty or one of [y], [yes], [n],
    [no]: the answer is the default for the empty one, yes for [y] and
    [yes], no for [n] and [no].  It wrote the prompt before each line it
    read and the reminder after each line it refused. *)
Theorem ask_yes_no_returned (lower : str -> str) (prompt : str)
    (default_yes : bool) (c c' : Console) (b : bool) :
  ask_yes_no lower prompt default_yes c = Returned b c' ->
  let text :=
    prompt ++ lit " (" ++ (if default_yes then lit "Y/n" else lit "y/N")
    ++ lit "): " in
  exists refused line,
    keyboard c = refused ++ line :: keyboard c' /\
    Forall (fun l => lower (strip l) <> [] /\
                     ~ In (lower (strip l))
                          [lit "y"; lit "yes"; lit "n"; lit "no"]) refused /\
    (lower (strip line) = [] /\ b = default_yes \/
     In (lower (strip line)) [lit "y"; lit "yes"] /\ b = true \/
     In (lower (strip line)) [lit "n"; lit "no"] /\ b = false) /\
    screen c'
    = screen c
      ++ flat_map (fun _ => [text; lit "Please answer y or n." ++ [LF]])
                  refused
      ++ [text].
Proof.
  intros H text. unfold ask_yes_no in H.
  exact (ask_yes_no_loop_returned lower _ default_yes (keyboard c)
           (screen c) b c' H).
Qed.

Lemma asked_version_checked_witness :
  semver_shape (lit "v1.2.3") /\ validate_version (lit "v1.2.3") = Ok tt \/
  ~ semver_shape (lit "v1.2.3") /\
  validate_version (lit "v1.2.3")
  = Raise (SystemExit (lit "ERROR: Version must match syntax v1.2.3")).
Proof.
  apply (asked_version_checked (lit "Enter version (syntax v1.2.3)")
           {| keyboard := [[]; lit " v1.2.3 "]; screen := [] |}
           {| keyboard := [];
              screen := [lit "Enter version (syntax v1.2.3): ";
                         lit "Enter version (syntax v1.2.3): "] |}).
  vm_compute. reflexivity.
Defined.

Lemma ask_yes_no_returned_witness :
  exists refused line,
    [lit "maybe"; lit " YES "; lit "n"] = refused ++ line :: [lit "n"] /\
    length refused = 1%nat.
Proof.
  destruct (ask_yes_no_returned ascii_lower (lit "Overwrite") false
              {| keyboard := [lit "maybe"; lit " YES "; lit "n"];
                 screen := [] |}
              {| keyboard := [lit "n"];
                 screen := [lit "Overwrite (y/N): ";
                            lit "Please answer y or n." ++ [LF];
                            lit "Overwrite (y/N): "] |}
              true)
    as (refused & line & Hk & _ & _ & Hs).
  - vm_compute. reflexivity.
  - exists refused, line. split; [exact Hk|].
    cbn [keyboard] in Hk.
    destruct refused as [|r0 [|r1 refused]]; [discriminate | reflexivity |].
    exfalso. apply (f_equal (@length str)) in Hk.
    cbn [length app] in Hk. rewrite length_app in Hk. cbn [length] in Hk. lia.
Defined.

(* ------------------------------------------------------------------ *)
(** * Lines of a text that is stripped or joined *)
(* ------------------------------------------------------------------ *)

Lemma strip_after_space (c : char) (l : str) :
  isspace c = true -> strip (c :: l) = strip l.
Proof. intros H. unfold strip. simpl. rewrite H. reflexivity. Qed.

Lemma rstrip_before_space (l : str) (c : char) :
  isspace c = true -> rstrip (l ++ [c]) = rstrip l.
Proof.
  intros H. unfold rstrip. rewrite rev_app_distr. simpl. rewrite H.
  reflexivity.
Qed.

Lemma lstrip_app_kept (a b : str) :
  lstrip a <> [] -> lstrip (a ++ b) = lstrip a ++ b.
Proof.
  induction a as [|x a IH]; simpl; [congruence|].
  destruct (isspace x); [exact IH | reflexivity].
Qed.

Lemma lstrip_app_blank (a b : str) :
  forallb isspace a = true -> lstrip (a ++ b) = lstrip b.
Proof.
  induction a as [|x a IH]; simpl; [reflexivity|].
  destruct (isspace x); simpl; [exact IH | discriminate].
Qed.

Lemma strip_before_space (l : str) (c : char) :
  isspace c = true -> strip (l ++ [c]) = strip l.
Proof.
  intros H. unfold strip. destruct (lstrip l) as [|d r] eqn:E.
  - apply lstrip_empty in E. rewrite (lstrip_app_blank l [c] E).
    simpl. rewrite H. reflexivity.
  - rewrite lstrip_app_kept by (rewrite E; discriminate).
    rewrite E. now apply rstrip_before_space.
Qed.

(** A property of lines that does not see the whitespace around them. *)
Section LinesUpToWhitespace.

Variable R : str -> Prop.
Hypothesis R_blank : R [].
Hypothesis R_strip : forall l, R l <-> R (strip l).

Lemma R_after_space (c : char) (l : str) :
  isspace c = true -> R (c :: l) -> R l.
Proof.
  intros H Hr. apply R_strip. apply R_strip in Hr.
  now rewrite strip_after_space in Hr.
Qed.

Lemma R_before_space (l : str) (c : char) :
  isspace c = true -> R (l ++ [c]) -> R l.
Proof.
  intros H Hr. apply R_strip. apply R_strip in Hr.
  now rewrite strip_before_space in Hr.
Qed.

(** The line being read is the start of the first line to come. *)
Lemma splitlines_from_current (s cur : str) :
  s <> [] ->
  exists l ls,
    splitlines_from [] s = l :: ls /\
    splitlines_from cur s = (rev cur ++ l) :: ls.
Proof.
  revert cur; induction s as [|c s IH]; intros cur Hne; [congruence|].
  cbn [splitlines_from]. destruct (islinebreak c) eqn:Ec.
  - destruct s as [|c' s''].
    + eexists; eexists. split; [reflexivity|].
      now rewrite app_nil_r.
    + destruct ((c =? CR) && (c' =? LF)); eexists; eexists;
        (split; [reflexivity|]); now rewrite app_nil_r.
  - destruct s as [|c' s''].
    + cbn [splitlines_from]. eexists; eexists. split; reflexivity.
    + destruct (IH [c] ltac:(discriminate)) as (l & ls & E1 & E2).
      destruct (IH (c :: cur) ltac:(discriminate)) as (l' & ls' & E1' & E2').
      rewrite E1 in E1'. injection E1' as <- <-.
      exists (c :: l), ls. split; [exact E2|].
      rewrite E2'. cbn [rev]. rewrite <- app_assoc. reflexivity.
Qed.

Lemma lines_after_space (c : char) (s : str) :
  isspace c = true ->
  Forall R (splitlines (c :: s)) -> Forall R (splitlines s).
Proof.
  intros Hc. unfold splitlines. cbn [splitlines_from].
  destruct (islinebreak c) eqn:Ec.
  - destruct s as [|c' s'']; [constructor|].
    destruct ((c =? CR) && (c' =? LF)) eqn:Ecr.
    + intros H. inversion H as [|? ? _ Hrest]; subst.
      apply andb_true_iff in Ecr as [_ Elf]. apply N.eqb_eq in Elf; subst c'.
      cbn [splitlines_from]. change (islinebreak LF) with true. cbv iota.
      destruct s'' as [|c3 s3]; constructor; auto.
    + intros H. inversion H; subst; assumption.
  - destruct s as [|c' s'']; [constructor|].
    destruct (splitlines_from_current (c' :: s'') [c] ltac:(discriminate))
      as (l & ls & E1 & E2).
    rewrite E1, E2. intros H. inversion H as [|? ? Hl Hls]; subst.
    constructor; [|exact Hls]. exact (R_after_space c l Hc Hl).
Qed.

Lemma lines_lstrip (s : str) :
  Forall R (splitlines s) -> Forall R (splitlines (lstrip s)).
Proof.
  induction s as [|c s IH]; [auto|]. simpl lstrip.
  destruct (isspace c) eqn:Ec; [|auto].
  intros H. apply IH. exact (lines_after_space c s Ec H).
Qed.

Lemma lines_before_space (c : char) (n : nat) :
  isspace c = true ->
  forall s cur,
    (length s <= n)%nat ->
    Forall R (splitlines_from cur (s ++ [c])) ->
    Forall R (splitlines_from cur s).
Proof.
  intros Hc. induction n as [|n IH]; intros s cur Hlen H.
  - destruct s; [|simpl in Hlen; lia]. cbn [app] in H.
    cbn [splitlines_from] in *. destruct cur as [|x cur]; [constructor|].
    destruct (islinebreak c).
    + inversion H; subst. constructor; [assumption | constructor].
    + cbn [splitlines_from] in H. inversion H as [|? ? Hl _]; subst.
      constructor; [|constructor]. cbn [rev] in Hl.
      exact (R_before_space _ c Hc Hl).
  - destruct s as [|a s'].
    + apply (IH [] cur); [simpl; lia | exact H].
    + simpl in Hlen. cbn [app splitlines_from] in *.
      destruct (islinebreak a) eqn:Ea.
      * destruct s' as [|b s2].
        -- cbn [app] in H.
           destruct ((a =? CR) && (c =? LF));
             inversion H; subst; constructor; auto; constructor.
        -- cbn [app] in H. simpl in Hlen.
           destruct ((a =? CR) && (b =? LF)).
           ++ inversion H; subst. constructor; [assumption|].
              apply IH; [lia | assumption].
           ++ inversion H; subst. constructor; [assumption|].
              apply (IH (b :: s2)); [simpl; lia | assumption].
      * apply IH; [lia | exact H].
Qed.

Lemma lines_rstrip (s : str) :
  Forall R (splitlines s) -> Forall R (splitlines (rstrip s)).
Proof.
  unfold rstrip. rewrite <- (rev_involutive s) at 1.
  induction (rev s) as [|c t IH]; [auto|].
  cbn [rev]. simpl lstrip. destruct (isspace c) eqn:Ec; [|auto].
  intros H. apply IH. unfold splitlines in *.
  exact (lines_before_space c (length (rev t)) Ec (rev t) []
           (Nat.le_refl _) H).
Qed.

Lemma lines_strip (s : str) :
  Forall R (splitlines s) -> Forall R (splitlines (strip s)).
Proof. intros H. unfold strip. now apply lines_rstrip, lines_lstrip. Qed.

Lemma splitlines_from_line (x : str) :
  single_line x ->
  forall cur r,
    splitlines_from cur (x ++ LF :: r)
    = (rev cur ++ x) :: splitlines_from [] r.
Proof.
  induction 1 as [|c x Hc _ IH]; intros cur r.
  - cbn [app splitlines_from]. change (islinebreak LF) with true. cbv iota.
    rewrite app_nil_r. destruct r; reflexivity.
  - cbn [app splitlines_from]. rewrite Hc, IH. cbn [rev].
    rewrite <- app_assoc. reflexivity.
Qed.

Lemma splitlines_from_last_line (x : str) :
  single_line x ->
  forall cur, Forall (fun l => l = rev cur ++ x) (splitlines_from cur x).
Proof.
  induction 1 as [|c x Hc _ IH]; intros cur.
  - cbn [splitlines_from]. destruct cur; constructor; [|constructor].
    now rewrite app_nil_r.
  - cbn [splitlines_from]. rewrite Hc.
    specialize (IH (c :: cur)). cbn [rev] in IH.
    rewrite <- app_assoc in IH. exact IH.
Qed.

Lemma lines_join (ls : list str) :
  Forall single_line ls -> Forall R ls ->
  Forall R (splitlines (join [LF] ls)).
Proof.
  intros Hs Hr. induction Hs as [|x ls Hx Hls IH]; [constructor|].
  inversion Hr as [|? ? Rx Rls]; subst.
  destruct ls as [|y ls].
  - cbn [join]. unfold splitlines.
    pose proof (splitlines_from_last_line x Hx []) as H.
    rewrite Forall_forall in *. intros l Hl. rewrite (H l Hl). exact Rx.
  - change (join [LF] (x :: y :: ls)) with (x ++ LF :: join [LF] (y :: ls)).
    unfold splitlines. rewrite (splitlines_from_line x Hx).
    constructor; [exact Rx | exact (IH Rls)].
Qed.

End LinesUpToWhitespace.

(* ------------------------------------------------------------------ *)
(** * Properties of the release message *)
(* ------------------------------------------------------------------ *)

Lemma join_blank (ls : list str) :
  forallb isspace (join [LF] ls) = true <->
  Forall (fun l => forallb isspace l = true) ls.
Proof.
  induction ls as [|x ls IH]; [split; [constructor | reflexivity]|].
  destruct ls as [|y ls].
  - cbn [join]. split; [intros H; constructor; [exact H | constructor]|].
    intros H. now inversion H.
  - change (join [LF] (x :: y :: ls)) with (x ++ LF :: join [LF] (y :: ls)).
    rewrite forallb_app. cbn [forallb]. change (isspace LF) with true.
    rewrite andb_true_iff, andb_true_l, IH. split.
    + intros [Hx Hr]. constructor; assumption.
    + intros H. inversion H; subst. split; assumption.
Qed.

Lemma kept_lines_blank (lines : list str) :
  Forall (fun l => forallb isspace l = true)
         (filter (fun line => negb (startswith (strip line) (lit "#"))) lines)
  <->
  Forall (fun line => forallb isspace line = true \/ comment_line line = true)
         lines.
Proof.
  unfold comment_line. induction lines as [|x lines IH];
    [split; constructor|].
  cbn [filter]. destruct (startswith (strip x) (lit "#")) eqn:E; cbn [negb].
  - rewrite IH. split.
    + intros H. constructor; [now right | exact H].
    + intros H. now inversion H.
  - split.
    + intros H. inversion H; subst. constructor; [now left | now apply IH].
    + intros H. inversion H as [|? ? [Hb | Hc] Hr]; subst; [|congruence].
      constructor; [exact Hb | now apply IH].
Qed.

(** X8. What [edit_message_with_nano] returns is never empty and has no
    whitespace at either end; it returns only when the editor exited
    with status 0. *)
Theorem edit_message_trimmed (nano : Editor) (default_text msg : str) :
  edit_message_with_nano nano default_text = Ok msg ->
  trimmed msg /\ exists content, nano default_text = Exited 0 content.
Proof.
  unfold edit_message_with_nano.
  destruct (nano default_text) as [|status content]; [discriminate|].
  destruct (Z.eqb_spec status 0) as [->|]; [|discriminate]. cbn [negb].
  set (msg' := strip _).
  destruct (truthy msg') eqn:E; [|discriminate]. cbn [negb].
  intros H; injection H as <-. split; [|eauto].
  now apply strip_trimmed.
Qed.

(** X9. After the editor has exited with status 0,
    [edit_message_with_nano] stops the script with [Aborted: no message
    entered.] exactly when every line of the file is empty, all
    whitespace, or a comment (its first character that is not whitespace
    is [#]): in particular when the file is left as it was. *)
Theorem edit_message_aborted (nano : Editor) (default_text content : str) :
  nano default_text = Exited 0 content ->
  edit_message_with_nano nano default_text
  = Raise (SystemExit (lit "Aborted: no message entered."))
  <->
  Forall (fun line => forallb isspace line = true \/ comment_line line = true)
         (splitlines content).
Proof.
  intros Hn. unfold edit_message_with_nano. rewrite Hn. cbn [Z.eqb negb].
  rewrite <- kept_lines_blank, <- join_blank, <- strip_empty.
  destruct (strip (join [LF] _)) as [|c r]; cbn [truthy negb].
  - split; reflexivity.
  - split; discriminate.
Qed.

Lemma comment_line_blank : comment_line [] = false.
Proof. reflexivity. Qed.

Lemma comment_line_strip (l : str) :
  comment_line l = false <-> comment_line (strip l) = false.
Proof. unfold comment_line. rewrite strip_idem. tauto. Qed.

(** X10. No line of the message that [edit_message_with_nano] returns is
    a comment: the lines whose first character that is not whitespace is
    [#] are all left out. *)
Theorem edit_message_no_comment (nano : Editor) (default_text msg : str) :
  edit_message_with_nano nano default_text = Ok msg ->
  Forall (fun line => comment_line line = false) (splitlines msg).
Proof.
  unfold edit_message_with_nano.
  destruct (nano default_text) as [|status content]; [discriminate|].
  destruct (negb (status =? 0)%Z); [discriminate|].
  set (kept := filter _ (splitlines content)).
  destruct (negb (truthy (strip (join [LF] kept)))); [discriminate|].
  intros H; injection H as <-.
  apply (lines_strip (fun line => comment_line line = false)
           comment_line_blank comment_line_strip).
  apply (lines_join (fun line => comment_line line = false)).
  - unfold kept. apply Forall_forall. intros l Hl.
    apply filter_In in Hl as [Hl _].
    pose proof (splitlines_from_single_line (length content) content []
                  (Nat.le_refl _) (Forall_nil _)) as Hs.
    rewrite Forall_forall in Hs. now apply Hs.
  - unfold kept. apply Forall_forall. intros l Hl.
    apply filter_In in Hl as [_ Hl]. unfold comment_line.
    now apply negb_true_iff in Hl.
Qed.

Lemma edit_message_trimmed_witness :
  trimmed (lit "Release 1 " ++ [LF] ++ lit "more") /\
  exists content,
    typing (lit "  Release 1 " ++ [LF] ++ lit " # note" ++ [LF]
            ++ lit "more" ++ [LF; LF]) release_message_template
    = Exited 0 content.
Proof.
  apply (edit_message_trimmed
           (typing (lit "  Release 1 " ++ [LF] ++ lit " # note" ++ [LF]
                    ++ lit "more" ++ [LF; LF]))
           release_message_template).
  vm_compute. reflexivity.
Defined.

Lemma edit_message_aborted_witness :
  edit_message_with_nano (typing []) release_message_template
  = Raise (SystemExit (lit "Aborted: no message entered."))
  <->
  Forall (fun line => forallb isspace line = true \/ comment_line line = true)
         (splitlines (release_message_template ++ [])).
Proof.
  apply (edit_message_aborted (typing []) release_message_template).
  reflexivity.
Defined.

Lemma edit_message_no_comment_witness :
  Forall (fun line => comment_line line = false)
         (splitlines (lit "Release 1 " ++ [LF] ++ lit "more")).
Proof.
  apply (edit_message_no_comment
           (typing (lit "  Release 1 " ++ [LF] ++ lit " # note" ++ [LF]
                    ++ lit "more" ++ [LF; LF]))
           release_message_template).
  vm_compute. reflexivity.
Defined.

(* ------------------------------------------------------------------ *)
(** * Properties of the repository name *)
(* ------------------------------------------------------------------ *)

Lemma split_from_single (sep : char) (seg : str) :
  ~ In sep seg ->
  forall cur, split_from sep cur seg = [rev cur ++ seg].
Proof.
  induction seg as [|c seg IH]; intros Hn cur.
  - cbn [split_from]. now rewrite app_nil_r.
  - cbn [split_from]. destruct (N.eqb_spec c sep) as [->|Hc].
    + elim Hn. now left.
    + rewrite IH by (intros H; apply Hn; now right).
      cbn [rev]. rewrite <- app_assoc. reflexivity.
Qed.

Lemma split_from_last (sep : char) (seg : str) :
  ~ In sep seg ->
  forall pre cur d,
    last (split_from sep cur (pre ++ sep :: seg)) d = seg.
Proof.
  intros Hn. induction pre as [|c pre IH]; intros cur d.
  - cbn [app split_from]. rewrite N.eqb_refl.
    rewrite (split_from_single sep seg Hn []). reflexivity.
  - cbn [app split_from]. destruct (c =? sep).
    + rewrite last_cons_default. apply IH.
    + apply IH.
Qed.

Lemma split_from_pieces (sep : char) (s : str) :
  forall cur, ~ In sep cur ->
  Forall (fun p => ~ In sep p) (split_from sep cur s).
Proof.
  induction s as [|c s IH]; intros cur Hcur.
  - cbn [split_from]. constructor; [|constructor].
    intros H. apply Hcur. now apply in_rev.
  - cbn [split_from]. destruct (N.eqb_spec c sep) as [->|Hc].
    + constructor; [|apply IH; intros []].
      intros H. apply Hcur. now apply in_rev.
    + apply IH. intros [H|H]; [congruence | now apply Hcur].
Qed.

Lemma Forall_last (P : str -> Prop) (l : list str) (d : str) :
  l <> [] -> Forall P l -> P (last l d).
Proof.
  intros Hne H. induction H as [|x l Hx Hl IH]; [congruence|].
  destruct l as [|y l]; [exact Hx|].
  change (last (x :: y :: l) d) with (last (y :: l) d).
  apply IH. discriminate.
Qed.

Lemma split_from_nonempty (sep : char) (s cur : str) :
  split_from sep cur s <> [].
Proof.
  revert cur; induction s as [|c s IH]; intros cur; cbn [split_from];
    [discriminate|].
  destruct (c =? sep); [discriminate | apply IH].
Qed.

Lemma split_last_piece (sep : char) (s : str) :
  ~ In sep (last (split sep s) []).
Proof.
  unfold split.
  apply (Forall_last (fun p => ~ In sep p)).
  - apply split_from_nonempty.
  - apply split_from_pieces. intros [].
Qed.

Lemma startswith_app (p x : str) : startswith (p ++ x) p = true.
Proof.
  induction p as [|c p IH]; [destruct x; reflexivity|].
  cbn [app startswith]. rewrite N.eqb_refl. exact IH.
Qed.

Lemma endswith_app (a b : str) : endswith (a ++ b) b = true.
Proof. unfold endswith. rewrite rev_app_distr. apply startswith_app. Qed.

Lemma drop_last_no_sep (sep : char) (n : nat) (s : str) :
  ~ In sep s -> ~ In sep (drop_last n s).
Proof.
  unfold drop_last. intros Hn H. apply Hn.
  rewrite <- (firstn_skipn (length s - n) s). apply in_or_app. now left.
Qed.

Lemma git_repo_root_run (w : World) (st : State) :
  git_repo_root w st
  = if (returncode (subprocess_run w cmd_toplevel) =? 0)%Z
    then Ok (strip (stdout (subprocess_run w cmd_toplevel)),
             {| calls := calls st ++ [cmd_toplevel];
                clock_reads := clock_reads st |})
    else Raise (CalledProcessError cmd_toplevel
                  (returncode (subprocess_run w cmd_toplevel))).
Proof.
  unfold git_repo_root, bind. rewrite run_checked. fold cmd_toplevel.
  destruct (returncode (subprocess_run w cmd_toplevel) =? 0)%Z; reflexivity.
Qed.

(** The name that [git_repo_name] reads off the URL [url] of the remote,
    if any. *)
Lemma git_repo_name_run (w : World) (Path_name : str -> str) (st : State) :
  git_repo_name w Path_name st
  = let url := strip (stdout (subprocess_run w cmd_origin_url)) in
    let seg := last (split 47 url) [] in
    let name :=
      if endswith seg (lit ".git") then drop_last 4 seg else seg in
    let st1 := {| calls := calls st ++ [cmd_origin_url];
                  clock_reads := clock_reads st |} in
    if (returncode (subprocess_run w cmd_origin_url) =? 0)%Z
       && truthy url && truthy name
    then Ok (name, st1)
    else match git_repo_root w st1 with
         | Ok (root, st2) => Ok (Path_name root, st2)
         | Raise e => Raise e
         end.
Proof.
  unfold git_repo_name. unfold bind at 1. unfold try_except.
  unfold bind at 1. rewrite run_checked. fold cmd_origin_url.
  cbv zeta.
  destruct (returncode (subprocess_run w cmd_origin_url) =? 0)%Z;
    cbn [andb].
  - destruct (truthy (strip (stdout (subprocess_run w cmd_origin_url))));
      cbn [andb]; [|reflexivity].
    destruct (truthy _); reflexivity.
  - reflexivity.
Qed.

(** X11. When git gives the URL of the remote, [git_repo_name] returns
    what follows its last [/] (the whole URL when it has none), without
    a final [.git], provided that this is not empty; it asks git nothing
    else. *)
Theorem git_repo_name_from_url (w : World) (Path_name : str -> str)
    (st : State) (pre seg : str) :
  succeeds w cmd_origin_url ->
  strip (stdout (subprocess_run w cmd_origin_url)) = pre ++ seg ->
  pre = [] \/ (exists base, pre = base ++ lit "/") ->
  ~ In 47 seg ->
  let name := if endswith seg (lit ".git") then drop_last 4 seg else seg in
  name <> [] ->
  git_repo_name w Path_name st
  = Ok (name, {| calls := calls st ++ [cmd_origin_url];
                 clock_reads := clock_reads st |}).
Proof.
  intros Hok Hurl Hpre Hseg name Hname.
  rewrite git_repo_name_run. cbv zeta.
  unfold succeeds in Hok. rewrite Hok, Hurl. cbn [Z.eqb andb].
  assert (Hlast : last (split 47 (pre ++ seg)) [] = seg).
  { unfold split. destruct Hpre as [-> | (base & ->)].
    - cbn [app]. rewrite (split_from_single 47 seg Hseg []). reflexivity.
    - rewrite <- app_assoc. apply (split_from_last 47 seg Hseg). }
  rewrite Hlast. fold name.
  assert (Hsegne : pre ++ seg <> []).
  { intros E. apply app_eq_nil in E as [_ ->]. now apply Hname. }
  destruct (pre ++ seg) as [|c r]; [congruence|].
  destruct name as [|c' r']; [congruence | reflexivity].
Qed.

(** X12. A name that [git_repo_name] takes from the URL of the remote
    (it has then asked git for nothing but that URL) is not empty and
    contains no [/]. *)
Theorem git_repo_name_no_slash (w : World) (Path_name : str -> str)
    (st st' : State) (name : str) :
  git_repo_name w Path_name st = Ok (name, st') ->
  calls st' = calls st ++ [cmd_origin_url] ->
  name <> [] /\ ~ In 47 name.
Proof.
  rewrite git_repo_name_run. cbv zeta.
  set (url := strip (stdout (subprocess_run w cmd_origin_url))).
  set (seg := last (split 47 url) []).
  set (nm := if endswith seg (lit ".git") then drop_last 4 seg else seg).
  destruct ((returncode (subprocess_run w cmd_origin_url) =? 0)%Z
            && truthy url && truthy nm) eqn:E.
  - intros H _. injection H as <- _.
    apply andb_true_iff in E as [_ E]. split.
    + destruct nm; [discriminate | discriminate].
    + unfold nm. pose proof (split_last_piece 47 url) as Hs. fold seg in Hs.
      destruct (endswith seg (lit ".git")); [|exact Hs].
      now apply drop_last_no_sep.
  - rewrite git_repo_root_run.
    destruct (returncode (subprocess_run w cmd_toplevel) =? 0)%Z;
      [|discriminate].
    intros H Hc. injection H as _ <-. cbn [calls] in Hc.
    apply (f_equal (@length command)) in Hc.
    rewrite !length_app in Hc. cbn [length] in Hc. lia.
Qed.

Lemma git_repo_name_from_url_witness :
  git_repo_name
    (origin_world (completed (lit "git@forge.example.org:team/a51.git" ++ [LF])))
    last_piece st0
  = Ok (lit "a51", {| calls := [cmd_origin_url]; clock_reads := 0 |}).
Proof.
  apply (git_repo_name_from_url
           (origin_world
              (completed (lit "git@forge.example.org:team/a51.git" ++ [LF])))
           last_piece st0 (lit "git@forge.example.org:team/")
           (lit "a51.git")).
  - reflexivity.
  - vm_compute. reflexivity.
  - right. exists (lit "git@forge.example.org:team"). reflexivity.
  - vm_compute. intros H. repeat (destruct H as [H|H]; [discriminate|]).
    exact H.
  - vm_compute. discriminate.
Defined.

Lemma git_repo_name_no_slash_witness :
  lit "a51" <> [] /\ ~ In 47 (lit "a51").
Proof.
  apply (git_repo_name_no_slash
           (origin_world
              (completed (lit "https://example.org/team/a51.git" ++ [LF])))
           last_piece st0
           {| calls := [cmd_origin_url]; clock_reads := 0 |}).
  - vm_compute. reflexivity.
  - reflexivity.
Defined.


(* ------------------------------------------------------------------ *)
(** * The text of the builder and the lines of the specification *)
(* ------------------------------------------------------------------ *)

Lemma unlines_cons (x : str) (lines : list str) :
  unlines (x :: lines) = x ++ LF :: unlines lines.
Proof. unfold unlines. cbn [map concat]. now rewrite <- app_assoc. Qed.

Lemma unlines_join (x : str) (lines : list str) :
  unlines (x :: lines) = join [LF] (x :: lines) ++ [LF].
Proof.
  revert x; induction lines as [|y lines IH]; intros x.
  - rewrite unlines_cons. reflexivity.
  - rewrite unlines_cons, IH.
    change (join [LF] (x :: y :: lines))
      with (x ++ [LF] ++ join [LF] (y :: lines)).
    rewrite <- !app_assoc. reflexivity.
Qed.

Lemma join_app (sep : str) (a b : list str) :
  a <> [] -> b <> [] ->
  join sep (a ++ b) = join sep a ++ sep ++ join sep b.
Proof.
  intros Ha Hb. induction a as [|x a IH]; [congruence|].
  destruct a as [|y a].
  - destruct b as [|z b]; [congruence | reflexivity].
  - change (join sep ((x :: y :: a) ++ b))
      with (x ++ sep ++ join sep ((y :: a) ++ b)).
    rewrite IH by discriminate.
    change (join sep (x :: y :: a)) with (x ++ sep ++ join sep (y :: a)).
    rewrite <- !app_assoc. reflexivity.
Qed.

Lemma join_cons (sep x : str) (l : list str) :
  l <> [] -> join sep (x :: l) = x ++ sep ++ join sep l.
Proof. destruct l; [congruence | reflexivity]. Qed.

Lemma render_section_lines (s : section) :
  render_section s = join [LF] (section_lines s).
Proof. reflexivity. Qed.

Lemma document_lines_nonempty (s : section) (rest : list section) :
  document_lines (s :: rest) <> [].
Proof. destruct rest; discriminate. Qed.

Lemma join_document_lines (s : section) (rest : list section) :
  join [LF] (document_lines (s :: rest))
  = join [LF; LF] (map render_section (s :: rest)).
Proof.
  revert s; induction rest as [|s' rest IH]; intros s.
  - reflexivity.
  - change (document_lines (s :: s' :: rest))
      with (section_lines s ++ [] :: document_lines (s' :: rest)).
    rewrite join_app by discriminate.
    rewrite (join_cons _ _ (document_lines (s' :: rest)))
      by apply document_lines_nonempty.
    rewrite IH.
    change (map render_section (s :: s' :: rest))
      with (render_section s :: render_section s' :: map render_section rest).
    change (join [LF; LF]
              (render_section s :: render_section s'
               :: map render_section rest))
      with (render_section s ++ [LF; LF]
            ++ join [LF; LF] (map render_section (s' :: rest))).
    rewrite render_section_lines. reflexivity.
Qed.

(** The text [render] builds with [join] is the text of the lines of the
    specification. *)
Lemma render_unlines (secs : list section) :
  secs <> [] -> render secs = unlines (document_lines secs).
Proof.
  destruct secs as [|s rest]; [congruence|]. intros _.
  unfold render. rewrite <- join_document_lines.
  pose proof (document_lines_nonempty s rest) as Hne.
  destruct (document_lines (s :: rest)) as [|l ls]; [congruence|].
  symmetry. apply unlines_join.
Qed.

Lemma section_at_shift (w : World) (t : str) (ts : list str) (k i : nat) :
  section_at w (t :: ts) k (S i)
  = section_at w ts (if truthy (tag_creation_date w t) then k else S k) i.
Proof.
  unfold section_at. cbn [nth nth_error firstn absent_dates].
  f_equal. f_equal.
  destruct (truthy (tag_creation_date w t)); lia.
Qed.

Lemma sections_from_expected (w : World) (tags : list str) (k : nat) :
  sections_from w tags k = expected_sections w tags k.
Proof.
  revert k; induction tags as [|t ts IH]; intros k; [reflexivity|].
  unfold expected_sections. cbn [sections_from length seq map].
  f_equal.
  - unfold section_at, resolved_date.
    cbn [nth nth_error firstn absent_dates]. rewrite Nat.add_0_r.
    rewrite hd_error_nth_error. reflexivity.
  - rewrite IH. unfold expected_sections.
    rewrite <- seq_shift, map_map. apply map_ext. intros i.
    symmetry. apply section_at_shift.
Qed.


Lemma expected_sections_nth (w : World) (tags : list str) (k i : nat)
    (tag : str) :
  nth_error tags i = Some tag ->
  nth_error (expected_sections w tags k) i
  = Some {| sec_tag := tag;
            sec_date :=
              resolved_date w (k + absent_dates w (firstn i tags)) tag;
            sec_messages :=
              commit_messages_between w (nth_error tags (S i)) tag |}.
Proof.
  intros Hi. unfold expected_sections.
  assert (Hlt : (i < length tags)%nat).
  { apply nth_error_Some. rewrite Hi. discriminate. }
  rewrite nth_error_map, nth_error_seq.
  destruct (Nat.ltb_spec i (length tags)) as [_|Hge]; [|lia].
  cbn [option_map Nat.add]. unfold section_at.
  rewrite (nth_error_nth tags i [] Hi). reflexivity.
Qed.

(** The text of a run on a non-empty tag list whose queries succeed. *)
Lemma build_changelog_text (w : World) (st st1 : State) (tags : list str) :
  git_tag_list_sorted_desc w st = Ok (tags, st1) ->
  tags <> [] ->
  queries_succeed w tags ->
  build_changelog w st
  = Ok (unlines (document_lines (expected_sections w tags (clock_reads st))),
        {| calls := calls st ++ cmd_tag_list
                    :: flat_map (queries_at tags) (seq 0 (length tags));
           clock_reads := clock_reads st + absent_dates w tags |}).
Proof.
  intros Htags Hne Hq.
  rewrite (build_changelog_run w st st1 tags Htags Hne Hq).
  rewrite sections_from_expected, render_unlines; [reflexivity|].
  unfold expected_sections. destruct tags; [congruence | discriminate].
Qed.

Lemma splitlines_unlines (lines : list str) :
  Forall single_line lines -> splitlines (unlines lines) = lines.
Proof.
  induction 1 as [|x lines Hx _ IH]; [reflexivity|].
  rewrite unlines_cons. unfold splitlines.
  rewrite (splitlines_from_line x Hx [] (unlines lines)).
  cbn [rev app]. f_equal. exact IH.
Qed.

Lemma single_line_app (a b : str) :
  single_line a -> single_line b -> single_line (a ++ b).
Proof. intros Ha Hb. apply Forall_app. split; assumption. Qed.

Lemma digit_not_linebreak (n : N) : islinebreak (digit n) = false.
Proof.
  pose proof (digit_cases n) as H. simpl in H.
  repeat (destruct H as [<- | H]; [reflexivity|]). contradiction.
Qed.

Lemma strftime_Ymd_single_line (t : datetime) : single_line (strftime_Ymd t).
Proof.
  unfold strftime_Ymd.
  repeat (constructor; [first [apply digit_not_linebreak | reflexivity]|]).
  constructor.
Qed.

Lemma resolved_date_single_line (w : World) (k : nat) (tag : str) :
  single_line (tag_creation_date w tag) ->
  single_line (resolved_date w k tag).
Proof.
  intros H. unfold resolved_date.
  destruct (truthy (tag_creation_date w tag)); [exact H|].
  apply strftime_Ymd_single_line.
Qed.

Lemma list_tags_single_line (w : World) : Forall single_line (list_tags w).
Proof.
  unfold list_tags. apply Forall_forall. intros t Hin.
  apply filter_In in Hin as [Hin _].
  pose proof (stripped_lines_single_line
                (stdout (subprocess_run w cmd_tag_list))) as H.
  rewrite Forall_forall in H. now apply H.
Qed.

Lemma section_lines_single_line (s : section) :
  single_line (sec_tag s) -> single_line (sec_date s) ->
  Forall single_line (sec_messages s) ->
  Forall single_line (section_lines s).
Proof.
  intros Ht Hd Hm. unfold section_lines. constructor.
  - apply single_line_app; [repeat constructor|].
    apply single_line_app; [exact Ht|].
    apply single_line_app; [repeat constructor|].
    apply single_line_app; [repeat constructor|].
    apply single_line_app; [repeat constructor | exact Hd].
  - rewrite Forall_map. rewrite Forall_forall in *. intros m Hin.
    apply single_line_app; [repeat constructor | now apply Hm].
Qed.

Lemma document_lines_in (secs : list section) (line : str) :
  In line (document_lines secs) ->
  line = [] \/ exists s, In s secs /\ In line (section_lines s).
Proof.
  induction secs as [|s rest IH]; [intros []|].
  destruct rest as [|s' rest].
  - intros H. right. exists s. split; [now left | exact H].
  - change (document_lines (s :: s' :: rest))
      with (section_lines s ++ [] :: document_lines (s' :: rest)).
    intros H. apply in_app_or in H as [H | [H | H]].
    + right. exists s. split; [now left | exact H].
    + left. now symmetry.
    + destruct (IH H) as [E | (s0 & Hs0 & Hl)]; [now left|].
      right. exists s0. split; [now right | exact Hl].
Qed.

Lemma section_lines_in_document (secs : list section) (s : section)
    (line : str) :
  In s secs -> In line (section_lines s) -> In line (document_lines secs).
Proof.
  induction secs as [|s0 rest IH]; [intros []|].
  intros Hs Hl. destruct rest as [|s' rest].
  - destruct Hs as [-> | []]. exact Hl.
  - change (document_lines (s0 :: s' :: rest))
      with (section_lines s0 ++ [] :: document_lines (s' :: rest)).
    apply in_or_app. destruct Hs as [-> | Hs]; [now left|].
    right. right. now apply IH.
Qed.

Lemma document_lines_single_line (secs : list section) :
  Forall (fun s => Forall single_line (section_lines s)) secs ->
  Forall single_line (document_lines secs).
Proof.
  intros H. apply Forall_forall. intros line Hin.
  destruct (document_lines_in secs line Hin) as [-> | (s & Hs & Hl)];
    [constructor|].
  rewrite Forall_forall in H. specialize (H s Hs).
  rewrite Forall_forall in H. now apply H.
Qed.

(** The sections of the listed tags, as far as their parts are on one
    line each. *)
Lemma expected_sections_single_line (w : World) (tags : list str) (k : nat) :
  Forall single_line tags ->
  (forall tag, In tag tags -> single_line (tag_creation_date w tag)) ->
  Forall single_line (document_lines (expected_sections w tags k)).
Proof.
  intros Ht Hd. apply document_lines_single_line.
  unfold expected_sections. rewrite Forall_map. apply Forall_forall.
  intros i Hi. apply in_seq in Hi as [_ Hi]. cbn [Nat.add] in Hi.
  assert (Hin : In (nth i tags []) tags) by (apply nth_In; exact Hi).
  apply section_lines_single_line; unfold section_at;
    cbn [sec_tag sec_date sec_messages].
  - rewrite Forall_forall in Ht. now apply Ht.
  - apply resolved_date_single_line. now apply Hd.
  - apply stripped_lines_single_line.
Qed.

Lemma expected_sections_length (w : World) (tags : list str) (k : nat) :
  length (expected_sections w tags k) = length tags.
Proof. unfold expected_sections. now rewrite length_map, length_seq. Qed.

Lemma expected_sections_in (w : World) (tags : list str) (k : nat)
    (s : section) :
  In s (expected_sections w tags k) ->
  exists i, (i < length tags)%nat /\ s = section_at w tags k i /\
            In (sec_tag s) tags.
Proof.
  unfold expected_sections. intros H.
  apply in_map_iff in H as (i & <- & Hi). apply in_seq in Hi as [_ Hi].
  exists i. split; [exact Hi|]. split; [reflexivity|].
  unfold section_at; cbn [sec_tag]. now apply nth_In.
Qed.

(** A returned text ends with one newline, and only one. *)
Lemma changelog_one_final_newline (w : World) (k : nat) :
  list_tags w <> [] ->
  exists body c,
    unlines (document_lines (expected_sections w (list_tags w) k))
    = body ++ [c; LF] /\ c <> LF.
Proof.
  intros Hne.
  assert (Hs : sections_from w (list_tags w) k <> []).
  { intros E. apply (f_equal (@length section)) in E.
    rewrite sections_from_length in E.
    destruct (list_tags w); [congruence | discriminate]. }
  destruct (render_ends _ Hs (list_tags_well_formed w k))
    as (body & c & E & Hc).
  rewrite (render_unlines _ Hs), sections_from_expected in E.
  exists body, c. split; [exact E|]. intros ->. discriminate.
Qed.

(** C2. For a non-empty tag list the text is, line by line: for each
    tag in the order of the list, the header [## <tag> — <date>] with
    the tag's date, then one line [- <message>] for each message of the
    tag's interval in the order git gave them; one empty line between
    two sections; each line followed by one newline, so that the text
    ends with one newline and not with two.  No tag or message contains
    a line boundary, and when git's dates contain none either, splitting
    the text into lines gives back exactly these lines. *)
Theorem build_changelog_layout (w : World) (st st1 : State)
    (tags : list str) :
  git_tag_list_sorted_desc w st = Ok (tags, st1) ->
  tags <> [] ->
  queries_succeed w tags ->
  let secs := expected_sections w tags (clock_reads st) in
  exists text st',
    build_changelog w st = Ok (text, st') /\
    text = unlines (document_lines secs) /\
    length secs = length tags /\
    (forall i tag, nth_error tags i = Some tag ->
       nth_error secs i
       = Some {| sec_tag := tag;
                 sec_date :=
                   resolved_date w
                     (clock_reads st + absent_dates w (firstn i tags)) tag;
                 sec_messages :=
                   commit_messages_between w (nth_error tags (S i)) tag |}) /\
    Forall (fun s => Forall single_line (sec_tag s :: sec_messages s)) secs /\
    ((forall tag, In tag tags -> single_line (tag_creation_date w tag)) ->
     splitlines text = document_lines secs) /\
    exists body c, text = body ++ [c; LF] /\ c <> LF.
Proof.
  intros Htags Hne Hq secs.
  pose proof (build_changelog_text w st st1 tags Htags Hne Hq) as Hrun.
  apply git_tag_list_sorted_desc_ok in Htags as (_ & -> & _).
  fold secs in Hrun.
  exists (unlines (document_lines secs)). eexists.
  split; [exact Hrun|]. split; [reflexivity|].
  split; [apply expected_sections_length|].
  split; [intros i tag Hi; now apply expected_sections_nth|].
  split.
  { apply Forall_forall. intros s Hs.
    destruct (expected_sections_in _ _ _ _ Hs) as (i & _ & -> & Hin).
    constructor.
    - pose proof (list_tags_single_line w) as H. rewrite Forall_forall in H.
      now apply H.
    - unfold section_at; cbn [sec_messages].
      apply stripped_lines_single_line. }
  split.
  { intros Hd. apply splitlines_unlines.
    apply expected_sections_single_line;
      [apply list_tags_single_line | exact Hd]. }
  now apply changelog_one_final_newline.
Qed.

Lemma digit_minus_48 (n : N) : digit n - 48 = n mod 10.
Proof. unfold digit. rewrite N.add_comm. apply N.add_sub. Qed.

Lemma decimal_two (n : N) :
  n <= 99 -> 10 * ((n / 10) mod 10) + n mod 10 = n.
Proof.
  intros H.
  assert (Hq : n / 10 < 10) by (apply N.Div0.div_lt_upper_bound; lia).
  rewrite (N.mod_small (n / 10) 10 Hq).
  pose proof (N.div_mod n 10 ltac:(lia)) as E.
  set (q := n / 10) in *. set (r := n mod 10) in *. clearbody q r. lia.
Qed.

Lemma decimal_four (n : N) :
  n <= 9999 ->
  1000 * ((n / 1000) mod 10) + 100 * ((n / 100) mod 10)
  + 10 * ((n / 10) mod 10) + n mod 10 = n.
Proof.
  intros H.
  assert (Hq : n / 1000 < 10) by (apply N.Div0.div_lt_upper_bound; lia).
  rewrite (N.mod_small (n / 1000) 10 Hq).
  pose proof (N.div_mod n 10 ltac:(lia)) as E0.
  pose proof (N.div_mod (n / 10) 10 ltac:(lia)) as E1.
  pose proof (N.div_mod (n / 100) 10 ltac:(lia)) as E2.
  rewrite N.Div0.div_div in E1. change (10 * 10) with 100 in E1.
  rewrite N.Div0.div_div in E2. change (100 * 10) with 1000 in E2.
  set (q1 := n / 10) in *. set (q2 := n / 100) in *.
  set (q3 := n / 1000) in *.
  set (r0 := n mod 10) in *. set (r1 := q1 mod 10) in *.
  set (r2 := q2 mod 10) in *. clearbody q1 q2 q3 r0 r1 r2. lia.
Qed.

(** Reading back what [strftime] wrote gives the date of the clock. *)
Lemma Ymd_value_strftime (t : datetime) :
  valid_date t ->
  Ymd_value (strftime_Ymd t) = Some (year t, month t, day t).
Proof.
  intros (Hy & Hm & Hd). unfold strftime_Ymd, Ymd_value.
  cbn [forallb]. rewrite !digit_ascii. cbn [andb N.eqb Pos.eqb].
  rewrite !digit_minus_48.
  rewrite (decimal_four (year t)) by lia.
  rewrite (decimal_two (month t)) by lia.
  rewrite (decimal_two (day t)) by lia.
  reflexivity.
Qed.

(** C6. When git reports no date for a tag, the header of the tag's
    section in the returned text shows the date of the UTC clock, read
    at that moment, as [YYYY-MM-DD]: read back as numbers, the text of
    the date gives the year, the month and the day of that reading.  It
    is not empty, and the run returns normally. *)
Theorem missing_date_fallback (w : World) (st st1 : State)
    (tags : list str) (i : nat) (tag : str) :
  git_tag_list_sorted_desc w st = Ok (tags, st1) ->
  queries_succeed w tags ->
  nth_error tags i = Some tag ->
  tag_creation_date w tag = [] ->
  let now := utc_clock w (clock_reads st + absent_dates w (firstn i tags)) in
  valid_date now ->
  let secs := expected_sections w tags (clock_reads st) in
  exists date st',
    build_changelog w st = Ok (unlines (document_lines secs), st') /\
    nth_error secs i
    = Some {| sec_tag := tag;
              sec_date := date;
              sec_messages :=
                commit_messages_between w (nth_error tags (S i)) tag |} /\
    In (lit "## " ++ tag ++ lit " " ++ [EM_DASH] ++ lit " " ++ date)
       (document_lines secs) /\
    Ymd_value date = Some (year now, month now, day now) /\
    is_Ymd date = true /\
    date <> [].
Proof.
  intros Htags Hq Hi Habs now Hvalid secs.
  assert (Hne : tags <> []) by (destruct tags, i; discriminate).
  exists (strftime_Ymd now). eexists.
  split; [exact (build_changelog_text w st st1 tags Htags Hne Hq)|].
  assert (Hs : nth_error secs i
               = Some {| sec_tag := tag;
                         sec_date := strftime_Ymd now;
                         sec_messages :=
                           commit_messages_between w (nth_error tags (S i))
                             tag |}).
  { unfold secs. rewrite (expected_sections_nth w tags _ i tag Hi).
    unfold resolved_date. rewrite Habs. reflexivity. }
  split; [exact Hs|]. split.
  { apply (section_lines_in_document secs _ _ (nth_error_In _ _ Hs)).
    left. reflexivity. }
  split; [now apply Ymd_value_strftime|].
  split; [apply strftime_Ymd_format | discriminate].
Qed.




Lemma stripped_lines_not_blank (text : str) :
  stripped_lines text
  = map strip (filter (fun ln => negb (forallb isspace ln)) (splitlines text)).
Proof.
  unfold stripped_lines. f_equal. apply filter_ext. intros ln.
  destruct (forallb isspace ln) eqn:E.
  - apply strip_empty in E. rewrite E. reflexivity.
  - destruct (strip ln) eqn:E'; [|reflexivity].
    apply strip_empty in E'. congruence.
Qed.

Lemma no_bare_bullet (w : World) (tags : list str) (k : nat) (line : str) :
  In line (document_lines (expected_sections w tags k)) ->
  line <> lit "- " /\ line <> lit "-".
Proof.
  intros Hin.
  destruct (document_lines_in _ _ Hin) as [-> | (s & Hs & Hl)];
    [split; discriminate|].
  destruct Hl as [<- | Hl]; [split; discriminate|].
  apply in_map_iff in Hl as (m & <- & Hm).
  destruct (expected_sections_in _ _ _ _ Hs) as (i & _ & -> & _).
  unfold section_at in Hm; cbn [sec_messages] in Hm.
  unfold commit_messages_between in Hm.
  pose proof (stripped_lines_trimmed
                (stdout (subprocess_run w
                           (cmd_log (nth_error tags (S i)) (nth i tags [])))))
    as Ht.
  rewrite Forall_forall in Ht. destruct (Ht m Hm) as (Hne & _).
  destruct m as [|c m]; [congruence|]. split; discriminate.
Qed.

(** C9. The lines of git's answer that are empty or all whitespace give
    no message, and the other lines are kept stripped.  So, in the
    returned text, the bullets of a section are one line [- <message>]
    for each such line, with a message that is not empty; no line of the
    document is a bare [- ]; and the section of an interval whose answer
    has nothing but blank lines is its header line alone. *)
Theorem blank_messages_dropped (w : World) (st st1 : State)
    (tags : list str) :
  git_tag_list_sorted_desc w st = Ok (tags, st1) ->
  tags <> [] ->
  queries_succeed w tags ->
  let secs := expected_sections w tags (clock_reads st) in
  exists text st',
    build_changelog w st = Ok (text, st') /\
    text = unlines (document_lines secs) /\
    length secs = length tags /\
    (forall i tag, nth_error tags i = Some tag ->
       let answer :=
         stdout (subprocess_run w (cmd_log (nth_error tags (S i)) tag)) in
       let date :=
         resolved_date w (clock_reads st + absent_dates w (firstn i tags))
           tag in
       let messages :=
         map strip (filter (fun ln => negb (forallb isspace ln))
                           (splitlines answer)) in
       nth_error secs i
       = Some {| sec_tag := tag; sec_date := date;
                 sec_messages := messages |} /\
       Forall (fun m => m <> [] /\ strip m = m) messages /\
       (Forall (fun ln => forallb isspace ln = true) (splitlines answer) ->
        section_lines {| sec_tag := tag; sec_date := date;
                         sec_messages := messages |}
        = [lit "## " ++ tag ++ lit " " ++ [EM_DASH] ++ lit " " ++ date])) /\
    (forall line, In line (document_lines secs) ->
                  line <> lit "- " /\ line <> lit "-") /\
    ((forall tag, In tag tags -> single_line (tag_creation_date w tag)) ->
     forall line, In line (splitlines text) ->
                  line <> lit "- " /\ line <> lit "-").
Proof.
  intros Htags Hne Hq secs.
  pose proof (build_changelog_text w st st1 tags Htags Hne Hq) as Hrun.
  apply git_tag_list_sorted_desc_ok in Htags as (_ & -> & _).
  fold secs in Hrun.
  exists (unlines (document_lines secs)). eexists.
  split; [exact Hrun|]. split; [reflexivity|].
  split; [apply expected_sections_length|].
  split.
  { intros i tag Hi answer date messages.
    assert (Hm : commit_messages_between w (nth_error (list_tags w) (S i)) tag
                 = messages).
    { unfold commit_messages_between. apply stripped_lines_not_blank. }
    split.
    - unfold secs. rewrite (expected_sections_nth w _ _ i tag Hi), Hm.
      reflexivity.
    - split.
      + rewrite <- Hm. unfold commit_messages_between.
        pose proof (stripped_lines_trimmed answer) as H.
        rewrite Forall_forall in *. intros m Hin.
        destruct (H m Hin) as (H1 & H2 & _). split; assumption.
      + intros Hblank. unfold section_lines; cbn [sec_tag sec_date sec_messages].
        rewrite <- Hm. unfold commit_messages_between. fold answer.
        rewrite (stripped_lines_all_blank answer Hblank). reflexivity. }
  split; [intros line; apply no_bare_bullet|].
  intros Hd line Hin.
  rewrite splitlines_unlines in Hin
    by (apply expected_sections_single_line;
        [apply list_tags_single_line | exact Hd]).
  now apply (no_bare_bullet w (list_tags w) (clock_reads st)).
Qed.

(* ------------------------------------------------------------------ *)
(** * Determinism *)
(* ------------------------------------------------------------------ *)




(* ------------------------------------------------------------------ *)
(** * Adjacent sections *)
(* ------------------------------------------------------------------ *)


(* ------------------------------------------------------------------ *)
(** * The version check on every string *)
(* ------------------------------------------------------------------ *)



(* ------------------------------------------------------------------ *)
(** * The repository name when the URL gives none *)
(* ------------------------------------------------------------------ *)

(** X13. When the query for the URL of the remote fails, or gives
    nothing, or gives a URL that ends with [/], [git_repo_name] does not
    pass that failure on: it asks git for the top directory of the
    working copy, and returns the name of that directory, or raises
    [CalledProcessError] for this second query when it fails. *)
Theorem git_repo_name_fallback (w : World) (Path_name : str -> str)
    (st : State) :
  ~ succeeds w cmd_origin_url \/
  strip (stdout (subprocess_run w cmd_origin_url)) = [] \/
  (exists base,
     strip (stdout (subprocess_run w cmd_origin_url)) = base ++ lit "/") ->
  git_repo_name w Path_name st
  = if (returncode (subprocess_run w cmd_toplevel) =? 0)%Z
    then Ok (Path_name (strip (stdout (subprocess_run w cmd_toplevel))),
             {| calls := calls st ++ [cmd_origin_url; cmd_toplevel];
                clock_reads := clock_reads st |})
    else Raise (CalledProcessError cmd_toplevel
                  (returncode (subprocess_run w cmd_toplevel))).
Proof.
  intros Hcase. rewrite git_repo_name_run. cbv zeta.
  rewrite git_repo_root_run.
  match goal with
  | |- (if ?b then _ else _) = _ => assert (Hb : b = false)
  end.
  { destruct Hcase as [Hf | [He | (base & Hb)]].
    - unfold succeeds in Hf.
      destruct (Z.eqb_spec (returncode (subprocess_run w cmd_origin_url)) 0);
        [contradiction | reflexivity].
    - rewrite He. cbn [truthy]. now rewrite andb_false_r.
    - rewrite Hb. unfold split.
      change (lit "/") with (@cons char 47 (@nil char)).
      rewrite (split_from_last 47 [] (fun H => H) base [] []).
      cbn. now rewrite andb_false_r. }
  rewrite Hb.
  destruct (returncode (subprocess_run w cmd_toplevel) =? 0)%Z;
    [|reflexivity].
  cbn [calls clock_reads]. rewrite <- app_assoc. reflexivity.
Qed.

(* ------------------------------------------------------------------ *)
(** * Further checks on the example repositories *)
(* ------------------------------------------------------------------ *)

Lemma build_changelog_layout_witness :
  exists text st',
    build_changelog dated_world st0 = Ok (text, st') /\
    splitlines text
    = [ lit "## v2.0.0 " ++ [EM_DASH] ++ lit " 2024-02-02";
        lit "- feature A";
        lit "- fix B";
        [];
        lit "## v1.0.0 " ++ [EM_DASH] ++ lit " 2024-01-01";
        lit "- init" ].
Proof.
  destruct (build_changelog_layout dated_world st0 after_tag_list [v2; v1])
    as (text & st' & Hrun & _ & _ & _ & _ & Hsplit & _).
  - vm_compute. reflexivity.
  - discriminate.
  - intros i cmd _. reflexivity.
  - exists text, st'. split; [exact Hrun|].
    rewrite Hsplit; [vm_compute; reflexivity|].
    intros tag [<- | [<- | []]]; vm_compute; repeat constructor.
Defined.

Lemma missing_date_fallback_witness :
  exists date st',
    build_changelog undated_world st0
    = Ok (unlines (document_lines (expected_sections undated_world [v2; v1] 0)),
          st') /\
    In (lit "## v2.0.0 " ++ [EM_DASH] ++ lit " " ++ date)
       (document_lines (expected_sections undated_world [v2; v1] 0)) /\
    Ymd_value date = Some (2026, 11, 3).
Proof.
  destruct (missing_date_fallback undated_world st0 after_tag_list [v2; v1]
              0 v2)
    as (date & st' & Hrun & _ & Hin & Hval & _).
  - vm_compute. reflexivity.
  - intros i cmd _. reflexivity.
  - reflexivity.
  - vm_compute. reflexivity.
  - vm_compute. repeat split; discriminate.
  - exists date, st'. split; [exact Hrun|]. split; [exact Hin | exact Hval].
Defined.


Lemma blank_messages_dropped_witness :
  exists text st' date,
    build_changelog dated_world st0 = Ok (text, st') /\
    nth_error (expected_sections dated_world [v2; v1] 0) 0
    = Some {| sec_tag := v2; sec_date := date;
              sec_messages := [lit "feature A"; lit "fix B"] |}.
Proof.
  destruct (blank_messages_dropped dated_world st0 after_tag_list [v2; v1])
    as (text & st' & Hrun & _ & _ & Hsec & _).
  - vm_compute. reflexivity.
  - discriminate.
  - intros i cmd _. reflexivity.
  - destruct (Hsec 0%nat v2 eq_refl) as (Hs & _).
    exists text, st'. eexists. split; [exact Hrun | exact Hs].
Defined.



Lemma git_repo_name_fallback_witness :
  git_repo_name (origin_world (failed 1 [])) last_piece st0
  = Ok (lit "machine",
        {| calls := [cmd_origin_url; cmd_toplevel]; clock_reads := 0 |}).
Proof.
  etransitivity.
  - apply (git_repo_name_fallback (origin_world (failed 1 [])) last_piece st0).
    left. vm_compute. discriminate.
  - reflexivity.
Defined.


